(** * pixelstats SysfsCollector: a shallow embedding and its properties

    This development embeds [pixelstats/SysfsCollector.cpp] of the crosshatch
    device tree: the daemon that samples a fixed set of sysfs nodes and
    forwards them to the IPixelStats HAL.

    - [libc]          the C library calls the collector makes ([isspace],
                      [sscanf] with the formats ["%d"] and ["%g,%g"]), as
                      bionic implements them;
    - [android_base]  [android::base::Trim] and [std::replace];
    - the collector   [logBatteryChargeCycles], [logCodecFailed],
                      [reportSlowIoFromFile], [logSlowIO],
                      [logSpeakerImpedance], [logAll] and [collect], written
                      in a state-and-failure monad over the file system, the
                      [pixelstats_] member and the trace of observable
                      events (file reads and writes, log lines, HAL calls).
*)

From Stdlib Require Import ZArith Ascii String List Bool Lia.
From Stdlib Require Import Floats.SpecFloat.
From stdpp Require Import base option list strings gmap.
From Equations Require Import Equations.

Local Open Scope string_scope.
Local Open Scope Z_scope.
Local Open Scope list_scope.

(* ===================================================================== *)
(** * The C library                                                       *)
(* ===================================================================== *)

Module libc.

(** ** <ctype.h>, "C" locale *)

Definition code (c : ascii) : N := N_of_ascii c.

Definition in_range (lo hi : N) (c : ascii) : bool :=
  ((lo <=? code c) && (code c <=? hi))%N.

(** [isspace]: space, \t, \n, \v, \f, \r. *)
Definition isspace (c : ascii) : bool :=
  (code c =? 32)%N || in_range 9 13 c.

Definition isdigit (c : ascii) : bool := in_range 48 57 c.

Definition isupper (c : ascii) : bool := in_range 65 90 c.
Definition islower (c : ascii) : bool := in_range 97 122 c.
Definition isalnum (c : ascii) : bool := isdigit c || isupper c || islower c.

Definition isxdigit (c : ascii) : bool :=
  isdigit c || in_range 65 70 c || in_range 97 102 c.

Definition is_sign (c : ascii) : bool :=
  Ascii.eqb c "+" || Ascii.eqb c "-".

(** Value of a digit in base 16 (also used for base 10). *)
Definition digit_value (c : ascii) : Z :=
  if isdigit c then Z.of_N (code c) - 48
  else if in_range 65 70 c then Z.of_N (code c) - 55
  else if in_range 97 102 c then Z.of_N (code c) - 87
  else 0.

(** ** C strings *)

(** [std::string::c_str()] handed to a C function: the C function sees the
    bytes up to the first NUL. *)
Fixpoint c_str (s : string) : string :=
  match s with
  | EmptyString => EmptyString
  | String c s' => if Ascii.eqb c zero then EmptyString else String c (c_str s')
  end.

Fixpoint skip_space (s : string) : string :=
  match s with
  | String c s' => if isspace c then skip_space s' else s
  | EmptyString => s
  end.

Fixpoint string_take (n : nat) (s : string) : string :=
  match n, s with
  | S n', String c s' => String c (string_take n' s')
  | _, _ => EmptyString
  end.

Fixpoint string_drop (n : nat) (s : string) : string :=
  match n, s with
  | S n', String _ s' => string_drop n' s'
  | _, _ => s
  end.

(** Longest prefix of characters satisfying [p], and the rest. *)
Fixpoint span (p : ascii -> bool) (s : string) : string * string :=
  match s with
  | String c s' =>
      if p c then let '(a, b) := span p s' in (String c a, b)
      else (EmptyString, s)
  | EmptyString => (EmptyString, EmptyString)
  end.

(** Digits to a number, most significant first. *)
Fixpoint digits_value (base : Z) (acc : Z) (s : string) : Z :=
  match s with
  | String c s' => digits_value base (acc * base + digit_value c) s'
  | EmptyString => acc
  end.

(** ** Fixed-width integers *)

Definition INT32_MIN : Z := - 2 ^ 31.
Definition INT32_MAX : Z := 2 ^ 31 - 1.
Definition INTMAX_MIN : Z := - 2 ^ 63.
Definition INTMAX_MAX : Z := 2 ^ 63 - 1.

(** Conversion of an [intmax_t] to [int]: the low 32 bits, two's complement. *)
Definition to_int32 (z : Z) : Z := (z + 2 ^ 31) mod 2 ^ 32 - 2 ^ 31.

(** An optional sign, and what follows it. *)
Definition split_sign (buf : string) : bool * string :=
  match buf with
  | String c s' =>
      if Ascii.eqb c "-" then (true, s')
      else if Ascii.eqb c "+" then (false, s')
      else (false, buf)
  | EmptyString => (false, buf)
  end.

(** [strtoimax(buf, NULL, 10)] on a buffer holding an optional sign and
    digits: the value, clamped to the range of [intmax_t]. *)
Definition strtoimax (buf : string) : Z :=
  let '(neg, ds) := split_sign buf in
  let v := digits_value 10 0 (fst (span isdigit ds)) in
  let v := if neg then - v else v in
  Z.max INTMAX_MIN (Z.min INTMAX_MAX v).

(** ** sscanf, integer conversion

    The conversions are those of bionic's [vfscanf], which the collector is
    built against: white space is skipped, the field is collected in a
    buffer of [BUF] bytes, and the buffer is handed to [strtoimax] or
    [strtof].  The end of the input before a conversion makes the call
    return [EOF] when nothing was stored yet. *)

(** Size of the buffer [vfscanf] collects a numeric field in; a field is
    cut after [BUF - 1] characters. *)
Definition BUF : nat := 513.

(** The collection loop of the [CT_INT] conversion for base 10: an optional
    sign ([signok]) followed by digits, [width] characters at most.  Returns
    the field and whether no digit was seen ([ndigits]). *)
Fixpoint ct_int (width : nat) (signok ndigits : bool) (s : string)
  : string * bool :=
  match width, s with
  | S w, String c s' =>
      if isdigit c then
        let '(buf, nd) := ct_int w false false s' in (String c buf, nd)
      else if is_sign c && signok then
        let '(buf, nd) := ct_int w false ndigits s' in (String c buf, nd)
      else (EmptyString, ndigits)
  | _, _ => (EmptyString, ndigits)
  end.

(** [sscanf(s, "%d", &v)] where [v] holds [v0] before the call: the return
    value and the content of [v] afterwards.  [-1] is [EOF]. *)
Definition sscanf_d (s : string) (v0 : Z) : Z * Z :=
  match skip_space (c_str s) with
  | EmptyString => (-1, v0)
  | input =>
      let '(buf, ndigits) := ct_int (BUF - 1) true true input in
      if ndigits then (0, v0)
      else (1, to_int32 (strtoimax buf))
  end.

(** ** Single-precision floats *)

(** [float] is IEEE 754 binary32: 24 bits of precision, infinities at
    exponent 128.  Values are [spec_float]s, arithmetic is [SpecFloat]'s. *)
Definition prec : Z := 24.
Definition emax : Z := 128.

Definition float_of_Z (z : Z) : spec_float := binary_normalize prec emax z 0 false.

Definition float_mul (x y : spec_float) : spec_float := SFmul prec emax x y.

(** The quotient [num / den] of two positive integers, rounded to the
    nearest float, ties to even. *)
Definition round_ratio (neg : bool) (num den : Z) : spec_float :=
  if num =? 0 then S754_zero neg
  else
    let '(q, e, l) := SFdiv_core_binary prec emax num 0 den 0 in
    binary_round_aux prec emax neg q e l.

(** The integer part of a float, rounded toward zero; [None] for NaN and the
    infinities. *)
Definition float_trunc (x : spec_float) : option Z :=
  match x with
  | S754_zero _ => Some 0
  | S754_finite s m e =>
      let a := if 0 <=? e then Z.pos m * 2 ^ e else Z.pos m / 2 ^ (- e) in
      Some (if s then - a else a)
  | _ => None
  end.

(** ** sscanf, floating conversion *)

(** [parsefloat] reads the longest prefix of the input that can begin a
    floating constant and remembers ([commit]) the longest prefix read so
    far that is a complete constant; on the first character that does not
    fit, the characters after the commit point are pushed back. *)
Inductive pf_state :=
  S_START | S_GOTSIGN | S_INF | S_NAN | S_MAYBEHEX
| S_DIGITS | S_FRAC | S_EXP | S_EXPDIGITS.

Record pf := mk_pf {
  state : pf_state;
  infnanpos : Z;
  gotmantdig : bool;
  ishex : bool
}.

Definition set_state (s : pf_state) (st : pf) : pf :=
  mk_pf s (infnanpos st) (gotmantdig st) (ishex st).
Definition set_infnanpos (i : Z) (st : pf) : pf :=
  mk_pf (state st) i (gotmantdig st) (ishex st).
Definition set_gotmantdig (st : pf) : pf :=
  mk_pf (state st) (infnanpos st) true (ishex st).
Definition set_ishex (st : pf) : pf :=
  mk_pf (state st) (infnanpos st) (gotmantdig st) true.

Definition is_char (a b : ascii) (c : ascii) : bool :=
  Ascii.eqb c a || Ascii.eqb c b.

(** One case of the switch each.  [None] is [goto parsedone]; [Some (st, cm)]
    stores the character, with [cm] telling whether [commit = p] was run. *)
Definition in_expdigits (st : pf) (c : ascii) : option (pf * bool) :=
  if isdigit c then Some (st, true) else None.

Definition in_exp (st : pf) (c : ascii) : option (pf * bool) :=
  let st := set_state S_EXPDIGITS st in
  if is_sign c then Some (st, false) else in_expdigits st c.

Definition is_mant_digit (st : pf) (c : ascii) : bool :=
  (ishex st && isxdigit c) || isdigit c.

Definition in_frac (st : pf) (c : ascii) : option (pf * bool) :=
  if (is_char "E" "e" c && negb (ishex st)) || (is_char "P" "p" c && ishex st)
  then
    if negb (gotmantdig st) then None else Some (set_state S_EXP st, false)
  else if is_mant_digit st c then Some (set_gotmantdig st, true)
  else None.

Definition in_digits (st : pf) (c : ascii) : option (pf * bool) :=
  if is_mant_digit st c then Some (set_gotmantdig st, true)
  else
    let st := set_state S_FRAC st in
    if negb (Ascii.eqb c ".") then in_frac st c
    else Some (st, gotmantdig st).

Definition in_maybehex (st : pf) (c : ascii) : option (pf * bool) :=
  let st := set_state S_DIGITS st in
  if is_char "X" "x" c then Some (set_ishex st, false)
  else in_digits (set_gotmantdig st) c.

Definition in_nan (st : pf) (c : ascii) : option (pf * bool) :=
  let next := set_infnanpos (infnanpos st + 1) st in
  match infnanpos st with
  | -1 => None
  | 0 => if is_char "A" "a" c then Some (next, false) else None
  | 1 => if is_char "N" "n" c then Some (next, true) else None
  | 2 => if Ascii.eqb c "(" then Some (next, false) else None
  | _ =>
      if Ascii.eqb c ")" then Some (set_infnanpos (-2 + 1) st, true)
      else if negb (isalnum c) && negb (Ascii.eqb c "_") then None
      else Some (next, false)
  end.

Definition in_inf (st : pf) (c : ascii) : option (pf * bool) :=
  let i := infnanpos st in
  let matches :=
    match String.get (Z.to_nat i) "nfinity", String.get (Z.to_nat i) "NFINITY" with
    | Some a, Some b => is_char a b c
    | _, _ => false
    end in
  if (6 <? i) || negb matches then None
  else Some (set_infnanpos (i + 1) st, (i =? 1) || (i =? 6)).

Definition in_gotsign (st : pf) (c : ascii) : option (pf * bool) :=
  if Ascii.eqb c "0" then Some (set_state S_MAYBEHEX st, true)
  else if is_char "I" "i" c then Some (set_state S_INF st, false)
  else if is_char "N" "n" c then Some (set_state S_NAN st, false)
  else in_digits (set_state S_DIGITS st) c.

Definition in_start (st : pf) (c : ascii) : option (pf * bool) :=
  let st := set_state S_GOTSIGN st in
  if is_sign c then Some (st, false) else in_gotsign st c.

Definition pf_step (st : pf) (c : ascii) : option (pf * bool) :=
  match state st with
  | S_START => in_start st c
  | S_GOTSIGN => in_gotsign st c
  | S_INF => in_inf st c
  | S_NAN => in_nan st c
  | S_MAYBEHEX => in_maybehex st c
  | S_DIGITS => in_digits st c
  | S_FRAC => in_frac st c
  | S_EXP => in_exp st c
  | S_EXPDIGITS => in_expdigits st c
  end.

(** The loop: [p] characters stored so far, the first [commit] of them
    committed.  The result is the length of the committed prefix. *)
Fixpoint parsefloat_loop (width : nat) (st : pf) (s : string) (p commit : nat)
  : nat :=
  match width, s with
  | S w, String c s' =>
      match pf_step st c with
      | Some (st', cm) =>
          parsefloat_loop w st' s' (S p) (if cm then S p else commit)
      | None => commit
      end
  | _, _ => commit
  end.

Definition parsefloat (s : string) : nat :=
  parsefloat_loop (BUF - 1) (mk_pf S_START 0 false false) s 0 0.

(** [strtof] on a buffer [parsefloat] accepted: the constant's exact value,
    rounded to the nearest float. *)

(** Mantissa digits [int.frac] and what follows them. *)
Definition mantissa (digit : ascii -> bool) (s : string)
  : string * string * string :=
  let '(int, r) := span digit s in
  match r with
  | String c r' =>
      if Ascii.eqb c "." then let '(frac, r'') := span digit r' in (int, frac, r'')
      else (int, EmptyString, r)
  | EmptyString => (int, EmptyString, r)
  end.

(** The exponent part, introduced by [a] or [b]; 0 when there is none. *)
Definition exponent (a b : ascii) (s : string) : Z :=
  match s with
  | String c r =>
      if is_char a b c then
        let '(neg, ds) := split_sign r in
        let v := digits_value 10 0 (fst (span isdigit ds)) in
        if neg then - v else v
      else 0
  | EmptyString => 0
  end.

Definition strtof_dec (neg : bool) (s : string) : spec_float :=
  let '(int, frac, r) := mantissa isdigit s in
  let m := digits_value 10 0 (int +:+ frac) in
  let e := exponent "E" "e" r - Z.of_nat (String.length frac) in
  if 0 <=? e then round_ratio neg (m * 10 ^ e) 1
  else round_ratio neg m (10 ^ (- e)).

Definition strtof_hex (neg : bool) (s : string) : spec_float :=
  let '(int, frac, r) := mantissa isxdigit s in
  let m := digits_value 16 0 (int +:+ frac) in
  let e := exponent "P" "p" r - 4 * Z.of_nat (String.length frac) in
  binary_normalize prec emax (if neg then - m else m) e neg.

Definition strtof (buf : string) : spec_float :=
  let '(neg, body) := split_sign buf in
  match body with
  | String c r =>
      if is_char "I" "i" c then S754_infinity neg
      else if is_char "N" "n" c then S754_nan
      else
        match r with
        | String x r' =>
            if Ascii.eqb c "0" && is_char "X" "x" x then strtof_hex neg r'
            else strtof_dec neg body
        | EmptyString => strtof_dec neg body
        end
  | EmptyString => S754_zero neg
  end.

(** The [CT_FLOAT] conversion of ["%g"] into a [float]: skip white space,
    collect the field, convert it.  [inl r] is the failure with [r] the
    value to return when nothing was assigned before: [EOF] at the end of the
    input, 0 when no constant starts here. *)
Definition ct_float (s : string) : Z + spec_float * string :=
  match skip_space s with
  | EmptyString => inl (-1)
  | input =>
      match parsefloat input with
      | O => inl 0
      | n => inr (strtof (string_take n input), string_drop n input)
      end
  end.

(** [sscanf(s, "%g,%g", &left, &right)]: the return value and what was
    stored in [left] and [right] ([None]: the variable was not assigned). *)
Definition sscanf_g_g (s : string) : Z * option spec_float * option spec_float :=
  match ct_float (c_str s) with
  | inl r => (r, None, None)
  | inr (l, rest) =>
      match rest with
      | String c rest' =>
          if Ascii.eqb c "," then
            match ct_float rest' with
            | inl _ => (1, Some l, None)
            | inr (r, _) => (2, Some l, Some r)
            end
          else (1, Some l, None)
      | EmptyString => (1, Some l, None)
      end
  end.

End libc.

(* ===================================================================== *)
(** * libbase and <algorithm>                                             *)
(* ===================================================================== *)

Module android_base.

(** [std::replace(s.begin(), s.end(), old, new)]: every character equal to
    [old] becomes [new], one for one. *)
Fixpoint replace (old new : ascii) (s : string) : string :=
  match s with
  | String c s' => String (if Ascii.eqb c old then new else c) (replace old new s')
  | EmptyString => EmptyString
  end.

(** Drop the [isspace] characters that end the string. *)
Fixpoint trim_end (s : string) : string :=
  match s with
  | String c s' =>
      match trim_end s' with
      | EmptyString => if libc.isspace c then EmptyString else String c EmptyString
      | t => String c t
      end
  | EmptyString => EmptyString
  end.

(** [android::base::Trim]: the string from its first character that is not
    [isspace] to its last one that is not; empty when it is all spaces. *)
Definition Trim (s : string) : string := trim_end (libc.skip_space s).

End android_base.

(* ===================================================================== *)
(** * The collector                                                       *)
(* ===================================================================== *)

(** ** Paths *)

Definition kSlowioReadCntPath : string :=
  "/sys/devices/platform/soc/1d84000.ufshc/slowio_read_cnt".
Definition kSlowioWriteCntPath : string :=
  "/sys/devices/platform/soc/1d84000.ufshc/slowio_write_cnt".
Definition kSlowioUnmapCntPath : string :=
  "/sys/devices/platform/soc/1d84000.ufshc/slowio_unmap_cnt".
Definition kSlowioSyncCntPath : string :=
  "/sys/devices/platform/soc/1d84000.ufshc/slowio_sync_cnt".

Definition kCycleCountBinsPath : string :=
  "/sys/class/power_supply/maxfg/cycle_counts_bins".

Definition kImpedancePath : string :=
  "/sys/class/misc/msm_cirrus_playback/resistance_left_right".
Definition kCodecPath : string :=
  "/sys/devices/platform/soc/171c0000.slim/tavil-slim-pgd/tavil_codec/codec_state".

(** ** The IPixelStats interface

    [IPixelStats.h] is generated from the HAL definition and is not among the
    sources; the enumerations list the enumerators the collector names. *)

Inductive HardwareType := CODEC.
Inductive HardwareErrorCode := COMPLETE.
Inductive IoOperation := READ | WRITE | UNMAP | SYNC.

(** [sp<IPixelStats>]: null, or a proxy of the running service. *)
Inductive sp_IPixelStats := null | proxy.

(** ** What the collector does to the outside *)

(** The [ALOGE] lines, by call site, with the arguments they print
    ([strerror(errno)] left out). *)
Inductive LogLine :=
| UnableReadChargeCycles
| UnableReadCodecState
| UnableRead (path : string)
| UnableParseInt (file_contents path : string)
| UnableClearSlowIO
| UnableReadImpedance (path : string)
| UnableParseImpedance (file_contents : string)
| UnableConnect
| UnableCreateTimerfd
| UnableSetTimer
| TimerfdError.

Inductive Event :=
| EvReadFile (path : string) (ok : bool)
| EvWriteFile (content path : string) (ok : bool)
| EvLog (line : LogLine)
| EvTryGetService (ok : bool)
| EvReportChargeCycles (buckets : string)
| EvReportHardwareFailed (hardwareType : HardwareType) (hardwareLocation : Z)
                         (errorCode : HardwareErrorCode)
| EvReportSlowIo (operation : IoOperation) (count : Z)
| EvReportSpeakerImpedance (speakerLocation : Z) (milliOhms : spec_float)
| EvClear
| EvSleep (seconds : Z)
| EvTimerfdCreate (fd : Z)
| EvTimerfdSettime (value interval : Z) (ret : Z).

(** ** The world and the collector's state *)

(** A file that can be read: its content, and whether a write to it
    succeeds.  A path that cannot be read is absent from the map. *)
Record File := mkFile { contents : string; writable : bool }.

Record World := mkWorld {
  fs : gmap string File;
  service_running : bool
}.

Record State := mkState {
  world : World;
  pixelstats_ : sp_IPixelStats;
  trace : list Event
}.

Definition set_world (w : World) (st : State) : State :=
  mkState w (pixelstats_ st) (trace st).

(** ** The monad: state, and [None] when the process dies (a null
    [pixelstats_] dereferenced, an unassigned local read) *)

Definition M (A : Type) : Type := State -> option (A * State).

Definition ret {A} (a : A) : M A := fun st => Some (a, st).

Definition bind {A B} (m : M A) (k : A -> M B) : M B :=
  fun st => match m st with
            | Some (a, st') => k a st'
            | None => None
            end.

Definition undefined {A} : M A := fun _ => None.

Notation "x <- m ;; k" := (bind m (fun x => k))
  (at level 20, m at level 99, k at level 200, only parsing).
Notation "m ;; k" := (bind m (fun _ => k))
  (at level 100, k at level 200, right associativity, only parsing).

Definition emit (e : Event) : M unit :=
  fun st => Some (tt, mkState (world st) (pixelstats_ st) (trace st ++ [e])).

(** ** The calls the collector makes *)

Definition ALOGE (line : LogLine) : M unit := emit (EvLog line).

(** [ReadFileToString(path, &file_contents)]: [Some] of the content when it
    returns true. *)
Definition ReadFileToString (path : string) : M (option string) :=
  fun st =>
    match fs (world st) !! path with
    | Some f => (emit (EvReadFile path true) ;; ret (Some (contents f))) st
    | None => (emit (EvReadFile path false) ;; ret None) st
    end.

(** [WriteStringToFile(content, path, true)]: the file is replaced by
    [content] when the write succeeds.  The collector writes only to a path
    it has just read. *)
Definition WriteStringToFile (content path : string) : M bool :=
  fun st =>
    match fs (world st) !! path with
    | Some f =>
        if writable f then
          let w := mkWorld (<[path := mkFile content true]> (fs (world st)))
                           (service_running (world st)) in
          (emit (EvWriteFile content path true) ;; ret true) (set_world w st)
        else (emit (EvWriteFile content path false) ;; ret false) st
    | None => (emit (EvWriteFile content path false) ;; ret false) st
    end.

(** [pixelstats_->f(...)]: the call goes out when [pixelstats_] is not null. *)
Definition pixelstats_call (e : Event) : M unit :=
  fun st =>
    match pixelstats_ st with
    | proxy => emit e st
    | null => None
    end.

Definition reportChargeCycles (buckets : string) : M unit :=
  pixelstats_call (EvReportChargeCycles buckets).
Definition reportHardwareFailed (t : HardwareType) (loc : Z) (c : HardwareErrorCode)
  : M unit :=
  pixelstats_call (EvReportHardwareFailed t loc c).
Definition reportSlowIo (operation : IoOperation) (count : Z) : M unit :=
  pixelstats_call (EvReportSlowIo operation count).
Definition reportSpeakerImpedance (loc : Z) (milliOhms : spec_float) : M unit :=
  pixelstats_call (EvReportSpeakerImpedance loc milliOhms).

(** [IPixelStats::tryGetService()]: a proxy when the service is running. *)
Definition tryGetService : M sp_IPixelStats :=
  fun st =>
    let running := service_running (world st) in
    (emit (EvTryGetService running) ;; ret (if running then proxy else null)) st.

(** Assignment to, and read of, the member [pixelstats_]. *)
Definition assign_pixelstats_ (p : sp_IPixelStats) : M unit :=
  fun st => Some (tt, mkState (world st) p (trace st)).

Definition read_pixelstats_ : M sp_IPixelStats :=
  fun st => Some (pixelstats_ st, st).

(** [pixelstats_.clear()] *)
Definition pixelstats_clear : M unit :=
  emit EvClear ;; assign_pixelstats_ null.

(** ** SysfsCollector *)

Definition logBatteryChargeCycles : M unit :=
  r <- ReadFileToString kCycleCountBinsPath ;;
  match r with
  | None => ALOGE UnableReadChargeCycles
  | Some file_contents =>
      let file_contents := android_base.replace " " "," file_contents in
      reportChargeCycles (android_base.Trim file_contents)
  end.

Definition logCodecFailed : M unit :=
  r <- ReadFileToString kCodecPath ;;
  match r with
  | None => ALOGE UnableReadCodecState
  | Some file_contents =>
      if String.eqb file_contents "0" then ret tt
      else reportHardwareFailed CODEC 0 COMPLETE
  end.

Definition reportSlowIoFromFile (path : string) (operation : IoOperation) : M unit :=
  r <- ReadFileToString path ;;
  match r with
  | None => ALOGE (UnableRead path)
  | Some file_contents =>
      let '(n, slow_io_count) := libc.sscanf_d file_contents 0 in
      (if negb (n =? 1) then
         ALOGE (UnableParseInt (libc.c_str file_contents) path)
       else if 0 <? slow_io_count then reportSlowIo operation slow_io_count
       else ret tt) ;;
      ok <- WriteStringToFile "0" path ;;
      if negb ok then ALOGE UnableClearSlowIO else ret tt
  end.

Definition logSlowIO : M unit :=
  reportSlowIoFromFile kSlowioReadCntPath READ ;;
  reportSlowIoFromFile kSlowioWriteCntPath WRITE ;;
  reportSlowIoFromFile kSlowioUnmapCntPath UNMAP ;;
  reportSlowIoFromFile kSlowioSyncCntPath SYNC.

Definition logSpeakerImpedance : M unit :=
  r <- ReadFileToString kImpedancePath ;;
  match r with
  | None => ALOGE (UnableReadImpedance kImpedancePath)
  | Some file_contents =>
      let '(n, left_, right_) := libc.sscanf_g_g file_contents in
      if negb (n =? 2) then
        ALOGE (UnableParseImpedance (libc.c_str file_contents))
      else
        match left_, right_ with
        | Some left_, Some right_ =>
            reportSpeakerImpedance 0 (libc.float_mul left_ (libc.float_of_Z 1000)) ;;
            reportSpeakerImpedance 1 (libc.float_mul right_ (libc.float_of_Z 1000))
        | _, _ => undefined
        end
  end.

Definition logAll : M unit :=
  service <- tryGetService ;;
  assign_pixelstats_ service ;;
  p <- read_pixelstats_ ;;
  match p with
  | null => ALOGE UnableConnect
  | proxy =>
      logBatteryChargeCycles ;;
      logCodecFailed ;;
      logSlowIO ;;
      logSpeakerImpedance ;;
      pixelstats_clear
  end.

(** ** The collection loop *)

(** What one [read(timerfd, buf, 8)] comes back with: the timer expired,
    after the rest of the system did [elapsed] to the world, or the call
    failed with [errno]. *)
Inductive timerfd_read :=
| expired (elapsed : World -> World)
| failed (errno : Z).

Definition EINTR : Z := 4.

(** The environment of one run of [collect]: the results of the two timer
    set-up calls, and of the successive reads of the timer. *)
Record Env := mkEnv {
  timerfd_create_ret : Z;
  timerfd_settime_ret : Z;
  timer : list timerfd_read
}.

(** [read]: the return value and [errno]. *)
Definition sys_read (r : timerfd_read) : Z * Z :=
  match r with
  | expired _ => (8, 0)
  | failed e => (-1, e)
  end.

Definition after_read (r : timerfd_read) (w : World) : World :=
  match r with
  | expired elapsed => elapsed w
  | failed _ => w
  end.

(** The inner [do ... while (readval < 0 && errno == EINTR)]: the value of
    [readval] on exit, the world then, and the reads still to come; [None]
    when the script ends with the loop still waiting. *)
Fixpoint read_timerfd (script : list timerfd_read) (w : World)
  : option (Z * World * list timerfd_read) :=
  match script with
  | [] => None
  | r :: rest =>
      let '(readval, errno) := sys_read r in
      if (readval <? 0) && (errno =? EINTR) then read_timerfd rest (after_read r w)
      else Some (readval, after_read r w, rest)
  end.

(** How a run ends: [collect] returned, or it is blocked in [read] with the
    script used up. *)
Inductive Exit := Returned | Blocked.

Definition inspect {A} (a : A) : {b : A | a = b} := exist _ a eq_refl.

(** The outer [while (1)]. *)
Equations? collect_loop (script : list timerfd_read) (st : State)
  : option (Exit * State) by wf (length script) lt :=
  collect_loop script st with inspect (read_timerfd script (world st)) := {
    | exist _ None _ => Some (Blocked, st)
    | exist _ (Some (readval, w, rest)) Heq =>
        if readval <? 0 then (ALOGE TimerfdError ;; ret Returned) (set_world w st)
        else
          match logAll (set_world w st) with
          | Some (_, st') => collect_loop rest st'
          | None => None
          end
  }.
Proof.
  clear collect_loop. revert Heq. generalize (world st).
  induction script as [|r script IH]; intros w0; simpl; [discriminate|].
  destruct (sys_read r) as [rv e].
  destruct ((rv <? 0) && (e =? EINTR)).
  - intros H. apply IH in H. lia.
  - intros H. injection H as _ _ <-. lia.
Qed.

Definition collect (env : Env) : M Exit :=
  let timerfd := timerfd_create_ret env in
  emit (EvTimerfdCreate timerfd) ;;
  if timerfd <? 0 then ALOGE UnableCreateTimerfd ;; ret Returned
  else
    emit (EvSleep 30) ;;
    logAll ;;
    let kSecondsPerDay := 60 * 60 * 24 in
    emit (EvTimerfdSettime kSecondsPerDay kSecondsPerDay (timerfd_settime_ret env)) ;;
    if negb (timerfd_settime_ret env =? 0) then ALOGE UnableSetTimer ;; ret Returned
    else collect_loop (timer env).

(* ===================================================================== *)
(** * Vocabulary of the properties                                         *)
(* ===================================================================== *)

(** The statistic sources of one cycle, in the order [logAll] and
    [logSlowIO] visit them. *)
Inductive Source :=
| ChargeCycles
| CodecFailures
| SlowIO (operation : IoOperation)
| SpeakerImpedance.

Definition sources : list Source :=
  [ChargeCycles; CodecFailures;
   SlowIO READ; SlowIO WRITE; SlowIO UNMAP; SlowIO SYNC;
   SpeakerImpedance].

Definition slowio_path (operation : IoOperation) : string :=
  match operation with
  | READ => kSlowioReadCntPath
  | WRITE => kSlowioWriteCntPath
  | UNMAP => kSlowioUnmapCntPath
  | SYNC => kSlowioSyncCntPath
  end.

Definition source_path (s : Source) : string :=
  match s with
  | ChargeCycles => kCycleCountBinsPath
  | CodecFailures => kCodecPath
  | SlowIO operation => slowio_path operation
  | SpeakerImpedance => kImpedancePath
  end.

(** The call that handles a source. *)
Definition run_source (s : Source) : M unit :=
  match s with
  | ChargeCycles => logBatteryChargeCycles
  | CodecFailures => logCodecFailed
  | SlowIO operation => reportSlowIoFromFile (slowio_path operation) operation
  | SpeakerImpedance => logSpeakerImpedance
  end.

(** The events of [m] run in world [w] with the service connected, and the
    world it leaves. *)
Definition events_of {A} (m : M A) (w : World) : list Event :=
  match m (mkState w proxy []) with
  | Some (_, st) => trace st
  | None => []
  end.

Definition world_after {A} (m : M A) (w : World) : World :=
  match m (mkState w proxy []) with
  | Some (_, st) => world st
  | None => w
  end.

(** The events of one cycle started in world [w]. *)
Definition cycle_events (w : World) : list Event :=
  match logAll (mkState w null []) with
  | Some (_, st) => trace st
  | None => []
  end.

Definition is_report (e : Event) : bool :=
  match e with
  | EvReportChargeCycles _ | EvReportHardwareFailed _ _ _
  | EvReportSlowIo _ _ | EvReportSpeakerImpedance _ _ => true
  | _ => false
  end.

Definition is_write (e : Event) : bool :=
  match e with EvWriteFile _ _ _ => true | _ => false end.

Definition report_calls (tr : list Event) : list Event := List.filter is_report tr.

(** What one source does, as a function of its file alone. *)

Definition charge_cycles_events (o : option File) : list Event :=
  match o with
  | None => [EvReadFile kCycleCountBinsPath false; EvLog UnableReadChargeCycles]
  | Some f =>
      [EvReadFile kCycleCountBinsPath true;
       EvReportChargeCycles
         (android_base.Trim (android_base.replace " " "," (contents f)))]
  end.

Definition codec_events (o : option File) : list Event :=
  match o with
  | None => [EvReadFile kCodecPath false; EvLog UnableReadCodecState]
  | Some f =>
      EvReadFile kCodecPath true ::
      (if String.eqb (contents f) "0" then []
       else [EvReportHardwareFailed CODEC 0 COMPLETE])
  end.

(** The reset of a slow-I/O counter: the write of ["0"], and the log line
    when the write fails. *)
Definition reset_events (path : string) (f : File) : list Event :=
  EvWriteFile "0" path (writable f) ::
  (if writable f then [] else [EvLog UnableClearSlowIO]).

Definition count_events (path : string) (operation : IoOperation) (f : File)
  : list Event :=
  let '(n, slow_io_count) := libc.sscanf_d (contents f) 0 in
  if negb (n =? 1) then [EvLog (UnableParseInt (libc.c_str (contents f)) path)]
  else if 0 <? slow_io_count then [EvReportSlowIo operation slow_io_count]
  else [].

Definition slowio_events (path : string) (operation : IoOperation)
    (o : option File) : list Event :=
  match o with
  | None => [EvReadFile path false; EvLog (UnableRead path)]
  | Some f =>
      EvReadFile path true :: (count_events path operation f ++ reset_events path f)
  end.

Definition impedance_events (o : option File) : list Event :=
  match o with
  | None => [EvReadFile kImpedancePath false;
             EvLog (UnableReadImpedance kImpedancePath)]
  | Some f =>
      EvReadFile kImpedancePath true ::
      match libc.sscanf_g_g (contents f) with
      | (2, Some l, Some r) =>
          [EvReportSpeakerImpedance 0 (libc.float_mul l (libc.float_of_Z 1000));
           EvReportSpeakerImpedance 1 (libc.float_mul r (libc.float_of_Z 1000))]
      | _ => [EvLog (UnableParseImpedance (libc.c_str (contents f)))]
      end
  end.

Definition source_events (s : Source) (o : option File) : list Event :=
  match s with
  | ChargeCycles => charge_cycles_events o
  | CodecFailures => codec_events o
  | SlowIO operation => slowio_events (slowio_path operation) operation o
  | SpeakerImpedance => impedance_events o
  end.

(** The world after the reset of the counter at [path]. *)
Definition reset_world (path : string) (w : World) : World :=
  match fs w !! path with
  | Some f =>
      if writable f then
        mkWorld (<[path := mkFile "0" true]> (fs w)) (service_running w)
      else w
  | None => w
  end.

Definition source_world (s : Source) (w : World) : World :=
  match s with
  | SlowIO operation => reset_world (slowio_path operation) w
  | _ => w
  end.

(** The part of a cycle's trace that belongs to the source at [path]: from
    the read of [path] to the next read of a file, or to the release of the
    service. *)
Definition is_marker (e : Event) : bool :=
  match e with
  | EvReadFile _ _ | EvClear | EvTryGetService _ => true
  | _ => false
  end.

Definition no_marker (tr : list Event) : Prop :=
  Forall (fun e => is_marker e = false) tr.

Fixpoint until_marker (tr : list Event) : list Event :=
  match tr with
  | [] => []
  | e :: tr' => if is_marker e then [] else e :: until_marker tr'
  end.

Fixpoint source_slice (path : string) (tr : list Event) : list Event :=
  match tr with
  | [] => []
  | EvReadFile q ok :: tr' =>
      if String.eqb q path then EvReadFile q ok :: until_marker tr'
      else source_slice path tr'
  | _ :: tr' => source_slice path tr'
  end.

(** A script without the reads that a signal interrupted. *)
Definition interrupted (r : timerfd_read) : bool :=
  match r with
  | failed e => e =? EINTR
  | expired _ => false
  end.

Definition without_interrupts (script : list timerfd_read) : list timerfd_read :=
  List.filter (fun r => negb (interrupted r)) script.

(** Characters at the ends of a string. *)
Definition starts_with_space (s : string) : bool :=
  match s with
  | String c _ => libc.isspace c
  | EmptyString => false
  end.

Fixpoint ends_with_space (s : string) : bool :=
  match s with
  | String c EmptyString => libc.isspace c
  | String _ s' => ends_with_space s'
  | EmptyString => false
  end.

Fixpoint all_space (s : string) : bool :=
  match s with
  | String c s' => libc.isspace c && all_space s'
  | EmptyString => true
  end.

Definition newline : string := String (ascii_of_nat 10) EmptyString.

(** A world where the write counter holds 7, the read counter is garbled
    and read-only, and the impedance file holds one value only. *)
Definition mixed_world : World :=
  mkWorld (<[kSlowioWriteCntPath := mkFile "7" true]>
             (<[kSlowioReadCntPath := mkFile "abc" false]>
                (<[kImpedancePath := mkFile "4.5" true]> (∅ : gmap string File))))
          true.

(** A world that holds one file, with the service running. *)
Definition one_file (path content : string) (can_write : bool) : World :=
  mkWorld {[ path := mkFile content can_write ]} true.

(** The world a cycle started in [w] leaves. *)
Definition cycle_world (w : World) : World := world_after logAll w.

Definition is_read (e : Event) : bool :=
  match e with EvReadFile _ _ => true | _ => false end.

Definition is_acquire (e : Event) : bool :=
  match e with EvTryGetService _ => true | _ => false end.

(** The calls that set the schedule up. *)
Definition is_setup (e : Event) : bool :=
  match e with
  | EvTimerfdCreate _ | EvSleep _ | EvTimerfdSettime _ _ _ => true
  | _ => false
  end.

(** The number of cycles begun in a trace. *)
Definition acquisitions (tr : list Event) : nat :=
  length (List.filter is_acquire tr).

(** The four slow-I/O counters, in the order of [logSlowIO]. *)
Definition counters : list IoOperation := [READ; WRITE; UNMAP; SYNC].

Definition is_counter_path (p : string) : bool :=
  existsb (fun operation => String.eqb (slowio_path operation) p) counters.

(** The log line of a source whose file cannot be read. *)
Definition unreadable_line (s : Source) : LogLine :=
  match s with
  | ChargeCycles => UnableReadChargeCycles
  | CodecFailures => UnableReadCodecState
  | SlowIO operation => UnableRead (slowio_path operation)
  | SpeakerImpedance => UnableReadImpedance kImpedancePath
  end.

(** A file after the reset of a counter. *)
Definition after_reset (o : option File) : option File :=
  match o with
  | Some f => if writable f then Some (mkFile "0" true) else Some f
  | None => None
  end.

(** The writes of a source in one cycle. *)
Definition source_writes (s : Source) (o : option File) : list Event :=
  match s, o with
  | SlowIO operation, Some f => [EvWriteFile "0" (slowio_path operation) (writable f)]
  | _, _ => []
  end.

(** The most report calls a source makes in one cycle. *)
Definition report_bound (s : Source) : nat :=
  match s with
  | SpeakerImpedance => 2%nat
  | _ => 1%nat
  end.

(** A read of the timer that ends the loop. *)
Definition hard_failure (r : timerfd_read) : bool :=
  match r with
  | failed e => negb (e =? EINTR)
  | expired _ => false
  end.

(** The expirations of the timer that a script delivers before the loop
    ends. *)
Fixpoint ticks_served (script : list timerfd_read) : nat :=
  match script with
  | [] => 0%nat
  | expired _ :: rest => S (ticks_served rest)
  | failed e :: rest => if e =? EINTR then ticks_served rest else 0%nat
  end.


(** Decimal digits only; a digit at the start. *)
Fixpoint all_digits (s : string) : bool :=
  match s with
  | String c s' => libc.isdigit c && all_digits s'
  | EmptyString => true
  end.

Definition starts_with_digit (s : string) : bool :=
  match s with
  | String c _ => libc.isdigit c
  | EmptyString => false
  end.

(** The content begins, after white space, with a decimal number: a digit,
    or a sign and then a digit.  This is the input ["%d"] converts. *)
Definition numeric (s : string) : bool :=
  match libc.skip_space (libc.c_str s) with
  | String c r => libc.isdigit c || (libc.is_sign c && starts_with_digit r)
  | EmptyString => false
  end.

(* ===================================================================== *)
(** * Properties                                                           *)
(* ===================================================================== *)

(** ** The C library on sample inputs *)

Example sscanf_d_samples :
  libc.sscanf_d "5" 0 = (1, 5) /\
  libc.sscanf_d "0" 0 = (1, 0) /\
  libc.sscanf_d "abc" 0 = (0, 0) /\
  libc.sscanf_d "" 0 = (-1, 0) /\
  libc.sscanf_d ("  -12" +:+ newline) 0 = (1, -12) /\
  libc.sscanf_d "7 slow" 0 = (1, 7) /\
  libc.sscanf_d "-" 0 = (0, 0) /\
  libc.sscanf_d "4294967301" 0 = (1, 5).
Proof. repeat split; reflexivity. Qed.

Example strtof_samples :
  libc.strtof "4.5" = S754_finite false 9437184 (-21) /\
  libc.strtof "0.1" = S754_finite false 13421773 (-27) /\
  libc.strtof "16777217" = S754_finite false 8388608 1 /\
  libc.strtof "1e39" = S754_infinity false /\
  libc.strtof "-0" = S754_zero true /\
  libc.strtof "0x1.8p1" = libc.float_of_Z 3.
Proof. repeat split; reflexivity. Qed.

Example sscanf_g_g_samples :
  libc.sscanf_g_g "4.5,5.25" = (2, Some (libc.strtof "4.5"), Some (libc.strtof "5.25")) /\
  libc.sscanf_g_g "4.5, 5.25" = (2, Some (libc.strtof "4.5"), Some (libc.strtof "5.25")) /\
  libc.sscanf_g_g "4.5 ,5.25" = (1, Some (libc.strtof "4.5"), None) /\
  libc.sscanf_g_g "4.5" = (1, Some (libc.strtof "4.5"), None) /\
  libc.sscanf_g_g "ohm" = (0, None, None) /\
  libc.sscanf_g_g "" = (-1, None, None).
Proof. repeat split; reflexivity. Qed.

Example Trim_samples :
  android_base.Trim ("  1,2" +:+ newline) = "1,2" /\
  android_base.Trim "1,2," = "1,2," /\
  android_base.Trim (newline +:+ " ") = "".
Proof. repeat split; reflexivity. Qed.

(** What ["%d"] stores fits an [int32_t], and the call returns [EOF], 0 or 1. *)
Lemma sscanf_d_range (s : string) (n v : Z) :
  libc.sscanf_d s 0 = (n, v) ->
  (n = -1 \/ n = 0 \/ n = 1) /\ libc.INT32_MIN <= v <= libc.INT32_MAX.
Proof.
  unfold libc.sscanf_d, libc.INT32_MIN, libc.INT32_MAX.
  destruct (libc.skip_space (libc.c_str s)) as [|c input].
  - intros [= <- <-]. split; [auto | lia].
  - destruct (libc.ct_int _ _ _ _) as [buf nd].
    destruct nd; intros [= <- <-]; (split; [auto|]); [lia|].
    unfold libc.to_int32.
    pose proof (Z.mod_pos_bound (libc.strtoimax buf + 2 ^ 31) (2 ^ 32) eq_refl).
    lia.
Qed.

(** ** Each source, run on its own *)

Ltac run_step :=
  repeat progress
    (cbv beta iota delta
       [bind ret emit ALOGE ReadFileToString WriteStringToFile
        reportChargeCycles reportHardwareFailed reportSlowIo
        reportSpeakerImpedance pixelstats_call undefined set_world];
     simpl).

Ltac norm_trace := repeat (rewrite <- app_assoc; simpl).

Ltac run_done := run_step; norm_trace; try reflexivity.

Lemma ct_float_failure (s : string) (e : Z) :
  libc.ct_float s = inl e -> e = -1 \/ e = 0.
Proof.
  unfold libc.ct_float. destruct (libc.skip_space s); [intros [= <-]; auto|].
  destruct (libc.parsefloat _); intros [=]; auto.
Qed.

(** Two values are stored exactly when [sscanf] returns 2, and then a comma
    follows the first constant. *)
Lemma sscanf_g_g_two (s : string) (l r : option spec_float) :
  libc.sscanf_g_g s = (2, l, r) ->
  exists x y rest rest',
    l = Some x /\ r = Some y /\
    libc.ct_float (libc.c_str s) = inr (x, String "," rest) /\
    libc.ct_float rest = inr (y, rest').
Proof.
  unfold libc.sscanf_g_g.
  destruct (libc.ct_float (libc.c_str s)) as [e|[x rest]] eqn:H1.
  - apply ct_float_failure in H1. intros [=]. lia.
  - destruct rest as [|c rest]; [intros [=]|].
    destruct (Ascii.eqb c ",") eqn:Hc; [|intros [=]].
    apply Ascii.eqb_eq in Hc; subst c.
    destruct (libc.ct_float rest) as [e|[y rest']] eqn:H2; intros [=]; subst.
    exists x, y, rest, rest'. auto.
Qed.

Lemma sscanf_g_g_assigned (s : string) (l r : option spec_float) :
  libc.sscanf_g_g s = (2, l, r) -> exists x y, l = Some x /\ r = Some y.
Proof.
  intros H. destruct (sscanf_g_g_two _ _ _ H) as (x & y & ? & ? & ? & ? & _).
  eauto.
Qed.

Lemma run_logBatteryChargeCycles (st : State) :
  pixelstats_ st = proxy ->
  logBatteryChargeCycles st =
    Some (tt, mkState (world st) proxy
                (trace st ++ charge_cycles_events (fs (world st) !! kCycleCountBinsPath))).
Proof.
  destruct st as [w px t]; simpl; intros ->.
  unfold logBatteryChargeCycles, charge_cycles_events. run_step.
  destruct (fs w !! kCycleCountBinsPath); run_done.
Qed.

Lemma run_logCodecFailed (st : State) :
  pixelstats_ st = proxy ->
  logCodecFailed st =
    Some (tt, mkState (world st) proxy
                (trace st ++ codec_events (fs (world st) !! kCodecPath))).
Proof.
  destruct st as [w px t]; simpl; intros ->.
  unfold logCodecFailed, codec_events. run_step.
  destruct (fs w !! kCodecPath) as [f|]; run_done.
  destruct (String.eqb (contents f) "0"); run_done.
Qed.

Lemma run_reportSlowIoFromFile (path : string) (operation : IoOperation) (st : State) :
  pixelstats_ st = proxy ->
  reportSlowIoFromFile path operation st =
    Some (tt, mkState (reset_world path (world st)) proxy
                (trace st ++ slowio_events path operation (fs (world st) !! path))).
Proof.
  destruct st as [w px t]; simpl; intros ->.
  unfold reportSlowIoFromFile, slowio_events, count_events, reset_events, reset_world.
  run_step.
  destruct (fs w !! path) as [f|] eqn:Hf; run_done.
  destruct (libc.sscanf_d (contents f) 0) as [n c].
  destruct (n =? 1); simpl; [destruct (0 <? c); simpl|];
    run_step; rewrite Hf; destruct (writable f); run_done.
Qed.

Lemma run_logSpeakerImpedance (st : State) :
  pixelstats_ st = proxy ->
  logSpeakerImpedance st =
    Some (tt, mkState (world st) proxy
                (trace st ++ impedance_events (fs (world st) !! kImpedancePath))).
Proof.
  destruct st as [w px t]; simpl; intros ->.
  unfold logSpeakerImpedance, impedance_events. run_step.
  destruct (fs w !! kImpedancePath) as [f|]; run_done.
  destruct (libc.sscanf_g_g (contents f)) as [[n l] r] eqn:Hs.
  destruct (n =? 2) eqn:Hn; simpl.
  - apply Z.eqb_eq in Hn; subst n.
    destruct (sscanf_g_g_assigned _ _ _ Hs) as (x & y & -> & ->).
    run_done.
  - assert (n <> 2) by (intros ->; discriminate).
    destruct n as [|[q|q|]|]; run_done.
    destruct q as [q|q|]; run_done. congruence.
Qed.

Lemma run_source_spec (s : Source) (st : State) :
  pixelstats_ st = proxy ->
  run_source s st =
    Some (tt, mkState (source_world s (world st)) proxy
                (trace st ++ source_events s (fs (world st) !! source_path s))).
Proof.
  destruct s; simpl.
  - apply run_logBatteryChargeCycles.
  - apply run_logCodecFailed.
  - apply run_reportSlowIoFromFile.
  - apply run_logSpeakerImpedance.
Qed.

Lemma events_of_source (s : Source) (w : World) :
  events_of (run_source s) w = source_events s (fs w !! source_path s).
Proof.
  unfold events_of. rewrite run_source_spec by reflexivity. reflexivity.
Qed.

Lemma world_after_source (s : Source) (w : World) :
  world_after (run_source s) w = source_world s w.
Proof.
  unfold world_after. rewrite run_source_spec by reflexivity. reflexivity.
Qed.

(** ** One cycle *)

Lemma bind_some {A B} (m : M A) (k : A -> M B) (st st' : State) (a : A) :
  m st = Some (a, st') -> bind m k st = k a st'.
Proof. unfold bind. intros ->. reflexivity. Qed.

Ltac paths_differ := apply String.eqb_neq; reflexivity.

Lemma source_path_inj (s s' : Source) :
  source_path s = source_path s' -> s = s'.
Proof.
  destruct s as [| |[]|], s' as [| |[]|]; simpl; intros H;
    try reflexivity; exfalso; revert H; paths_differ.
Qed.

Lemma reset_world_lookup_ne (p q : string) (w : World) :
  p <> q -> fs (reset_world p w) !! q = fs w !! q.
Proof.
  intros Hne. unfold reset_world.
  destruct (fs w !! p) as [f|]; [|reflexivity].
  destruct (writable f); [|reflexivity].
  simpl. apply lookup_insert_ne. exact Hne.
Qed.

Lemma reset_world_service (p : string) (w : World) :
  service_running (reset_world p w) = service_running w.
Proof.
  unfold reset_world. destruct (fs w !! p) as [f|]; [|reflexivity].
  destruct (writable f); reflexivity.
Qed.

Lemma source_world_lookup_ne (s s' : Source) (w : World) :
  s <> s' -> fs (source_world s w) !! source_path s' = fs w !! source_path s'.
Proof.
  intros Hne. destruct s; try reflexivity.
  simpl. apply reset_world_lookup_ne.
  intros H. apply Hne. apply source_path_inj. exact H.
Qed.

(** The world a cycle leaves: the four counters reset, in order. *)
Lemma run_logSlowIO (st : State) :
  pixelstats_ st = proxy ->
  logSlowIO st =
    Some (tt,
          mkState (foldl (fun w s => source_world s w) (world st)
                     [SlowIO READ; SlowIO WRITE; SlowIO UNMAP; SlowIO SYNC])
                  proxy
                  (trace st ++
                   concat (map (fun s => source_events s (fs (world st) !! source_path s))
                             [SlowIO READ; SlowIO WRITE; SlowIO UNMAP; SlowIO SYNC]))).
Proof.
  destruct st as [w px t]; simpl; intros ->. unfold logSlowIO.
  do 3 (erewrite bind_some by (apply run_reportSlowIoFromFile; reflexivity); simpl).
  rewrite run_reportSlowIoFromFile by reflexivity. simpl.
  rewrite !reset_world_lookup_ne by paths_differ.
  norm_trace. rewrite app_nil_r. reflexivity.
Qed.

Ltac logAll_start H :=
  unfold logAll;
  cbv beta iota delta [bind tryGetService assign_pixelstats_ read_pixelstats_
                       emit ret world pixelstats_ trace];
  rewrite H; cbv beta iota zeta.

Lemma logAll_acquired (st : State) :
  service_running (world st) = true ->
  logAll st =
    Some (tt,
          mkState (foldl (fun w s => source_world s w) (world st) sources) null
                  (trace st ++
                   EvTryGetService true ::
                   concat (map (fun s => source_events s (fs (world st) !! source_path s))
                             sources) ++
                   [EvClear])).
Proof.
  destruct st as [w px t]; simpl; intros Hup. logAll_start Hup.
  rewrite run_logBatteryChargeCycles by reflexivity. cbn [world pixelstats_ trace].
  rewrite run_logCodecFailed by reflexivity. cbn [world pixelstats_ trace].
  rewrite run_logSlowIO by reflexivity. cbn [world pixelstats_ trace].
  rewrite run_logSpeakerImpedance by reflexivity. cbn [world pixelstats_ trace].
  simpl. rewrite !reset_world_lookup_ne by paths_differ.
  unfold pixelstats_clear. run_step. unfold assign_pixelstats_. simpl.
  norm_trace. reflexivity.
Qed.

Lemma logAll_unavailable (st : State) :
  service_running (world st) = false ->
  logAll st =
    Some (tt, mkState (world st) null
                (trace st ++ [EvTryGetService false; EvLog UnableConnect])).
Proof.
  destruct st as [w px t]; simpl; intros Hdown. logAll_start Hdown.
  run_done.
Qed.

(** A cycle always comes to its end: no call goes through a null
    [pixelstats_], no local is read before [sscanf] stored it. *)
Lemma logAll_total (st : State) : exists st', logAll st = Some (tt, st').
Proof.
  destruct (service_running (world st)) eqn:Hs.
  - eexists. apply logAll_acquired. exact Hs.
  - eexists. apply logAll_unavailable. exact Hs.
Qed.

(** ** The slice of a source in the trace of a cycle *)

(** Every source begins with the read of its own file; nothing else it does
    is a read, an acquisition or a release. *)
Lemma source_events_shape (s : Source) (o : option File) :
  exists body,
    source_events s o = EvReadFile (source_path s) (bool_decide (is_Some o)) :: body /\
    no_marker body.
Proof.
  unfold no_marker.
  destruct s, o as [f|]; simpl;
    unfold slowio_events, count_events, reset_events;
    repeat match goal with
           | |- context [match ?x with _ => _ end] => destruct x; simpl
           end;
    eexists; (split; [reflexivity | repeat constructor]).
Qed.

Lemma until_marker_app (body rest : list Event) :
  no_marker body ->
  until_marker (body ++ rest) = body ++ until_marker rest.
Proof.
  induction 1 as [|e body He _ IH]; simpl; [reflexivity|].
  rewrite He, IH. reflexivity.
Qed.

Lemma source_slice_app (p : string) (body rest : list Event) :
  no_marker body ->
  source_slice p (body ++ rest) = source_slice p rest.
Proof.
  induction 1 as [|e body He _ IH]; simpl; [reflexivity|].
  destruct e; simpl in He; try discriminate; exact IH.
Qed.

(** What follows the segments of [l] begins with a marker when [rest] does. *)
Lemma until_marker_segments (l : list Source) (w : World) (rest : list Event) :
  until_marker rest = [] ->
  until_marker
    (concat (map (fun s => source_events s (fs w !! source_path s)) l) ++ rest) = [].
Proof.
  intros Hrest. destruct l as [|s l]; simpl; [exact Hrest|].
  destruct (source_events_shape s (fs w !! source_path s)) as (body & -> & _).
  reflexivity.
Qed.

Lemma source_slice_segments (l : list Source) (w : World) (s : Source)
    (rest : list Event) :
  In s l -> NoDup l -> until_marker rest = [] ->
  source_slice (source_path s)
    (concat (map (fun s => source_events s (fs w !! source_path s)) l) ++ rest)
  = source_events s (fs w !! source_path s).
Proof.
  intros Hin Hnd Hrest. induction Hnd as [|s0 l Hs0 Hnd IH]; [destruct Hin|].
  simpl. rewrite <- app_assoc.
  destruct (source_events_shape s0 (fs w !! source_path s0)) as (body & Heq & Hbody).
  rewrite Heq. simpl.
  destruct (String.eqb (source_path s0) (source_path s)) eqn:Hp.
  - apply String.eqb_eq, source_path_inj in Hp. subst s0.
    rewrite until_marker_app by exact Hbody.
    rewrite until_marker_segments by exact Hrest.
    rewrite app_nil_r. symmetry. exact Heq.
  - rewrite source_slice_app by exact Hbody.
    apply IH. destruct Hin as [->|Hin]; [|exact Hin].
    rewrite String.eqb_refl in Hp. discriminate.
Qed.

Lemma sources_complete (s : Source) : In s sources.
Proof. destruct s as [| |[]|]; simpl; tauto. Qed.

Lemma sources_NoDup : NoDup sources.
Proof.
  unfold sources.
  repeat (apply NoDup_cons_2;
          [rewrite ?elem_of_cons, elem_of_nil; intuition discriminate|]).
  apply NoDup_nil_2.
Qed.

Lemma cycle_events_acquired (w : World) :
  service_running w = true ->
  cycle_events w =
    EvTryGetService true ::
    concat (map (fun s => source_events s (fs w !! source_path s)) sources) ++
    [EvClear].
Proof.
  intros Hup. unfold cycle_events.
  rewrite logAll_acquired by exact Hup. reflexivity.
Qed.

Lemma source_slice_cycle (s : Source) (w : World) :
  service_running w = true ->
  source_slice (source_path s) (cycle_events w) =
    source_events s (fs w !! source_path s).
Proof.
  intros Hup. rewrite cycle_events_acquired by exact Hup.
  change (source_slice (source_path s) (EvTryGetService true :: ?t))
    with (source_slice (source_path s) t).
  apply source_slice_segments;
    [apply sources_complete | apply sources_NoDup | reflexivity].
Qed.

(** ** The loop *)

Lemma collect_loop_step (script : list timerfd_read) (st : State) :
  collect_loop script st =
    match read_timerfd script (world st) with
    | None => Some (Blocked, st)
    | Some (readval, w, rest) =>
        if readval <? 0 then (ALOGE TimerfdError ;; ret Returned) (set_world w st)
        else
          match logAll (set_world w st) with
          | Some (_, st') => collect_loop rest st'
          | None => None
          end
    end.
Proof.
  funelim (collect_loop script st);
    match goal with
    | H : read_timerfd _ _ = _ |- _ => rewrite H
    end; reflexivity.
Qed.

Lemma read_timerfd_length (script : list timerfd_read) (w w' : World)
    (readval : Z) (rest : list timerfd_read) :
  read_timerfd script w = Some (readval, w', rest) ->
  (length rest < length script)%nat.
Proof.
  revert w. induction script as [|r script IH]; intros w; simpl; [discriminate|].
  destruct (sys_read r) as [rv e].
  destruct ((rv <? 0) && (e =? EINTR)).
  - intros H. apply IH in H. lia.
  - intros H. injection H as _ _ <-. lia.
Qed.

(** The inner loop does not see the interrupted reads. *)
Lemma read_timerfd_without_interrupts (script : list timerfd_read) (w : World) :
  read_timerfd (without_interrupts script) w =
    match read_timerfd script w with
    | Some (readval, w', rest) => Some (readval, w', without_interrupts rest)
    | None => None
    end.
Proof.
  revert w. induction script as [|r script IH]; intros w; [reflexivity|].
  destruct r as [elapsed|e]; simpl.
  - reflexivity.
  - destruct (e =? EINTR) eqn:He; simpl.
    + apply IH.
    + rewrite He. reflexivity.
Qed.

Lemma collect_loop_without_interrupts (script : list timerfd_read) (st : State) :
  collect_loop (without_interrupts script) st = collect_loop script st.
Proof.
  remember (length script) as n eqn:Hn. revert script st Hn.
  induction n as [n IH] using lt_wf_ind. intros script st ->.
  rewrite (collect_loop_step script), (collect_loop_step (without_interrupts script)).
  rewrite read_timerfd_without_interrupts.
  destruct (read_timerfd script (world st)) as [[[readval w] rest]|] eqn:Hr;
    [|reflexivity].
  destruct (readval <? 0); [reflexivity|].
  destruct (logAll (set_world w st)) as [[[] st']|]; [|reflexivity].
  eapply IH; [|reflexivity]. eapply read_timerfd_length; eassumption.
Qed.

(** The loop never dies: a run ends returned or blocked in [read]. *)
Lemma collect_loop_total (script : list timerfd_read) (st : State) :
  exists e st', collect_loop script st = Some (e, st').
Proof.
  remember (length script) as n eqn:Hn. revert script st Hn.
  induction n as [n IH] using lt_wf_ind. intros script st ->.
  rewrite collect_loop_step.
  destruct (read_timerfd script (world st)) as [[[readval w] rest]|] eqn:Hr;
    [|eauto].
  destruct (readval <? 0); [run_step; eauto|].
  destruct (logAll_total (set_world w st)) as (st' & ->).
  eapply IH; [|reflexivity]. eapply read_timerfd_length; eassumption.
Qed.

Lemma collect_step (env : Env) (st : State) :
  collect env st =
    let created :=
      mkState (world st) (pixelstats_ st)
        (trace st ++ [EvTimerfdCreate (timerfd_create_ret env)]) in
    if timerfd_create_ret env <? 0 then
      Some (Returned,
            mkState (world st) (pixelstats_ st)
              (trace created ++ [EvLog UnableCreateTimerfd]))
    else
      match logAll (mkState (world st) (pixelstats_ st)
                      (trace created ++ [EvSleep 30])) with
      | Some (_, st1) =>
          let armed :=
            mkState (world st1) (pixelstats_ st1)
              (trace st1 ++ [EvTimerfdSettime 86400 86400 (timerfd_settime_ret env)]) in
          if negb (timerfd_settime_ret env =? 0) then
            Some (Returned,
                  mkState (world st1) (pixelstats_ st1)
                    (trace armed ++ [EvLog UnableSetTimer]))
          else collect_loop (timer env) armed
      | None => None
      end.
Proof.
  cbv beta iota zeta delta [collect bind emit ALOGE ret world pixelstats_ trace].
  destruct st as [w px t].
  destruct (timerfd_create_ret env <? 0); [reflexivity|].
  destruct (logAll _) as [[[] [w1 px1 t1]]|]; [|reflexivity].
  destruct (negb (timerfd_settime_ret env =? 0)); reflexivity.
Qed.

Lemma collect_total (env : Env) (st : State) :
  exists e st', collect env st = Some (e, st').
Proof.
  rewrite collect_step. cbv zeta.
  destruct (timerfd_create_ret env <? 0); [eauto|].
  destruct (logAll_total
              (mkState (world st) (pixelstats_ st)
                 (trace (mkState (world st) (pixelstats_ st)
                           (trace st ++ [EvTimerfdCreate (timerfd_create_ret env)]))
                  ++ [EvSleep 30]))) as (st1 & ->).
  destruct (negb (timerfd_settime_ret env =? 0)); [eauto|].
  apply collect_loop_total.
Qed.

(** ** Strings: [std::replace] and [Trim] *)

Lemma replace_get (old new : ascii) (s : string) (i : nat) :
  String.get i (android_base.replace old new s) =
    option_map (fun c => if Ascii.eqb c old then new else c) (String.get i s).
Proof.
  revert i. induction s as [|c s IH]; intros i; simpl; [reflexivity|].
  destruct i; simpl; [reflexivity | apply IH].
Qed.

Lemma replace_length (old new : ascii) (s : string) :
  String.length (android_base.replace old new s) = String.length s.
Proof. induction s as [|c s IH]; simpl; [reflexivity | now rewrite IH]. Qed.

Lemma replace_space_gone (s : string) (i : nat) :
  String.get i (android_base.replace " " "," s) <> Some " "%char.
Proof.
  rewrite replace_get. destruct (String.get i s) as [c|]; simpl; [|discriminate].
  destruct (Ascii.eqb c " ") eqn:Hc; [discriminate|].
  intros [= ->]. discriminate.
Qed.

Lemma get_append_l (s t : string) (i : nat) (c : ascii) :
  String.get i s = Some c -> String.get i (s +:+ t) = Some c.
Proof.
  revert i. induction s as [|d s IH]; intros i; simpl; [discriminate|].
  destruct i; [trivial | apply IH].
Qed.

Lemma get_append_r (l s : string) (i : nat) :
  String.get (String.length l + i) (l +:+ s) = String.get i s.
Proof. induction l as [|d l IH]; simpl; [reflexivity | exact IH]. Qed.

Lemma skip_space_split (s : string) :
  exists lead, s = lead +:+ libc.skip_space s /\ all_space lead = true.
Proof.
  induction s as [|c s (lead & IH & Hl)]; simpl.
  - exists EmptyString. split; reflexivity.
  - destruct (libc.isspace c) eqn:Hc.
    + exists (String c lead). simpl. rewrite Hc, Hl. split; [|reflexivity].
      change (String c s = String c (lead +:+ libc.skip_space s)).
      rewrite <- IH. reflexivity.
    + exists EmptyString. split; reflexivity.
Qed.

Lemma skip_space_start (s : string) :
  starts_with_space (libc.skip_space s) = false.
Proof.
  induction s as [|c s IH]; simpl; [reflexivity|].
  destruct (libc.isspace c) eqn:Hc; [exact IH | simpl; exact Hc].
Qed.

Lemma trim_end_split (s : string) :
  exists trail, s = android_base.trim_end s +:+ trail /\ all_space trail = true.
Proof.
  induction s as [|c s (trail & IH & Ht)]; simpl.
  - exists EmptyString. split; reflexivity.
  - destruct (android_base.trim_end s) as [|d t] eqn:Hs; simpl in *.
    + destruct (libc.isspace c) eqn:Hc; simpl.
      * exists (String c trail). simpl. rewrite Hc, Ht. subst s. split; reflexivity.
      * exists trail. subst s. split; [reflexivity | exact Ht].
    + exists trail. split; [|exact Ht].
      change (String c s = String c (String d t +:+ trail)).
      rewrite <- IH. reflexivity.
Qed.

Lemma trim_end_end (s : string) :
  ends_with_space (android_base.trim_end s) = false.
Proof.
  induction s as [|c s IH]; simpl; [reflexivity|].
  destruct (android_base.trim_end s) as [|d t] eqn:Hs.
  - destruct (libc.isspace c) eqn:Hc; simpl; [reflexivity | exact Hc].
  - exact IH.
Qed.

Lemma trim_end_start (s : string) :
  starts_with_space s = false ->
  starts_with_space (android_base.trim_end s) = false.
Proof.
  destruct s as [|c s]; simpl; [reflexivity|]. intros Hc.
  destruct (android_base.trim_end s); [rewrite Hc|]; simpl; [exact Hc | exact Hc].
Qed.

Lemma Trim_split (s : string) :
  exists lead trail,
    s = lead +:+ android_base.Trim s +:+ trail /\
    all_space lead = true /\ all_space trail = true /\
    starts_with_space (android_base.Trim s) = false /\
    ends_with_space (android_base.Trim s) = false.
Proof.
  unfold android_base.Trim.
  destruct (skip_space_split s) as (lead & Hs & Hl).
  destruct (trim_end_split (libc.skip_space s)) as (trail & Ht & Htr).
  exists lead, trail. repeat split; try assumption.
  - rewrite <- Ht. exact Hs.
  - apply trim_end_start, skip_space_start.
  - apply trim_end_end.
Qed.

(** ** The claims *)

Lemma events_of_reportSlowIoFromFile (operation : IoOperation) (w : World) (f : File) :
  fs w !! slowio_path operation = Some f ->
  events_of (reportSlowIoFromFile (slowio_path operation) operation) w =
    EvReadFile (slowio_path operation) true ::
    count_events (slowio_path operation) operation f ++
    reset_events (slowio_path operation) f.
Proof.
  intros Hf. pose proof (events_of_source (SlowIO operation) w) as H.
  cbn [run_source source_events source_path] in H. rewrite Hf in H. exact H.
Qed.

(** ["%d"] and the contents it converts. *)

Lemma ct_int_step (w : nat) (signok ndigits : bool) (c : ascii) (s : string) :
  libc.ct_int (S w) signok ndigits (String c s) =
    if libc.isdigit c then
      let '(buf, nd) := libc.ct_int w false false s in (String c buf, nd)
    else if libc.is_sign c && signok then
      let '(buf, nd) := libc.ct_int w false ndigits s in (String c buf, nd)
    else (EmptyString, ndigits).
Proof. reflexivity. Qed.

Lemma ct_int_digit_seen (width : nat) (signok : bool) (s : string) :
  snd (libc.ct_int width signok false s) = false.
Proof.
  revert signok s. induction width as [|w IH]; intros signok s; [reflexivity|].
  destruct s as [|c s]; [reflexivity|]. rewrite ct_int_step.
  pose proof (IH false s) as H. destruct (libc.ct_int w false false s) as [buf nd].
  destruct (libc.isdigit c); [exact H|].
  destruct (libc.is_sign c && signok); [exact H | reflexivity].
Qed.

Lemma ct_int_after_sign (w : nat) (r : string) :
  snd (libc.ct_int (S w) false true r) = negb (starts_with_digit r).
Proof.
  destruct r as [|c r]; [reflexivity|]. rewrite ct_int_step.
  cbn [starts_with_digit]. rewrite andb_false_r.
  pose proof (ct_int_digit_seen w false r) as H.
  destruct (libc.ct_int w false false r) as [buf nd].
  destruct (libc.isdigit c); [exact H | reflexivity].
Qed.

Lemma ct_int_numeric (w : nat) (c : ascii) (r : string) :
  snd (libc.ct_int (S (S w)) true true (String c r)) =
    negb (libc.isdigit c || (libc.is_sign c && starts_with_digit r)).
Proof.
  rewrite ct_int_step, andb_true_r.
  pose proof (ct_int_digit_seen (S w) false r) as Hdig.
  pose proof (ct_int_after_sign w r) as Hsign.
  destruct (libc.ct_int (S w) false false r) as [buf nd].
  destruct (libc.ct_int (S w) false true r) as [buf' nd'].
  cbn [snd] in *. subst nd nd'.
  destruct (libc.isdigit c); [reflexivity|].
  destruct (libc.is_sign c); reflexivity.
Qed.

(** [sscanf] with ["%d"] returns 1 exactly on the numeric contents; on the
    others it returns [EOF] or 0 and stores nothing. *)
Lemma sscanf_d_numeric (s : string) (v0 : Z) :
  (numeric s = true -> exists count, libc.sscanf_d s v0 = (1, count)) /\
  (numeric s = false ->
   exists n, libc.sscanf_d s v0 = (n, v0) /\ (n = -1 \/ n = 0)).
Proof.
  unfold numeric, libc.sscanf_d.
  destruct (libc.skip_space (libc.c_str s)) as [|c r].
  - split; [discriminate|]. intros _. exists (-1). auto.
  - change (libc.BUF - 1)%nat with (S (S 510)).
    pose proof (ct_int_numeric 510 c r) as H.
    destruct (libc.ct_int (S (S 510)) true true (String c r)) as [buf nd].
    cbn [snd] in H. subst nd. split; intros Hn; rewrite Hn; cbn [negb]; eauto.
Qed.

(** C1, as the code has it.  For each of the four slow-I/O counters, once
    the file was read: content "0" gives no report call and the write of "0";
    content "5" gives one slow-I/O report of count 5 with the counter's
    operation, then the write of "0"; content "abc", and every content that
    is not numeric (after white space it does not begin with a digit, or a
    sign and a digit), gives no report call, one log line, and still the
    write of "0".  A numeric content is parsed to a count, reported once
    when the count is above zero, and followed by the write of "0".  Whatever
    the content, the write of "0" follows the read: when it succeeds the file
    holds "0", when it fails one more log line is written and the file keeps
    its content. *)
Theorem slowio_reset_follows_read (operation : IoOperation) (w : World) (f : File) :
  fs w !! slowio_path operation = Some f ->
  let path := slowio_path operation in
  let ev := events_of (reportSlowIoFromFile path operation) w in
  (contents f = "0" -> ev = EvReadFile path true :: reset_events path f) /\
  (contents f = "5" ->
   ev = EvReadFile path true :: EvReportSlowIo operation 5 :: reset_events path f) /\
  (contents f = "abc" ->
   ev = EvReadFile path true :: EvLog (UnableParseInt "abc" path) :: reset_events path f) /\
  (numeric (contents f) = false ->
   ev = EvReadFile path true ::
        EvLog (UnableParseInt (libc.c_str (contents f)) path) ::
        reset_events path f) /\
  (numeric (contents f) = true ->
   exists count,
     libc.sscanf_d (contents f) 0 = (1, count) /\
     ev = EvReadFile path true ::
          (if 0 <? count then [EvReportSlowIo operation count] else []) ++
          reset_events path f) /\
  (exists parsed,
     ev = EvReadFile path true :: parsed ++ reset_events path f /\
     Forall (fun e => is_write e = false) parsed) /\
  reset_events path f =
    EvWriteFile "0" path (writable f) ::
    (if writable f then [] else [EvLog UnableClearSlowIO]) /\
  fs (world_after (reportSlowIoFromFile path operation) w) !! path
    = Some (if writable f then mkFile "0" true else f).
Proof.
  intros Hf. cbv zeta.
  pose proof (events_of_reportSlowIoFromFile operation w f Hf) as Hev.
  repeat split.
  - intros Hc. rewrite Hev. unfold count_events. rewrite Hc. reflexivity.
  - intros Hc. rewrite Hev. unfold count_events. rewrite Hc. reflexivity.
  - intros Hc. rewrite Hev. unfold count_events. rewrite Hc. reflexivity.
  - intros Hn. rewrite Hev. unfold count_events.
    destruct (proj2 (sscanf_d_numeric (contents f) 0) Hn) as (n & -> & [-> | ->]);
      reflexivity.
  - intros Hn.
    destruct (proj1 (sscanf_d_numeric (contents f) 0) Hn) as (count & Hscan).
    exists count. split; [exact Hscan|].
    rewrite Hev. unfold count_events. rewrite Hscan. reflexivity.
  - exists (count_events (slowio_path operation) operation f). split; [exact Hev|].
    unfold count_events. destruct (libc.sscanf_d (contents f) 0) as [n c].
    destruct (negb (n =? 1)); [|destruct (0 <? c)]; repeat constructor.
  - pose proof (world_after_source (SlowIO operation) w) as H.
    cbn [run_source source_world] in H. rewrite H.
    unfold reset_world. rewrite Hf.
    destruct (writable f); [apply lookup_insert_eq | exact Hf].
Qed.

Lemma slowio_reset_follows_read_witness :
  events_of (reportSlowIoFromFile kSlowioReadCntPath READ)
            (one_file kSlowioReadCntPath "0" true)
  = [EvReadFile kSlowioReadCntPath true; EvWriteFile "0" kSlowioReadCntPath true] /\
  events_of (reportSlowIoFromFile kSlowioWriteCntPath WRITE)
            (one_file kSlowioWriteCntPath "5" false)
  = [EvReadFile kSlowioWriteCntPath true; EvReportSlowIo WRITE 5;
     EvWriteFile "0" kSlowioWriteCntPath false; EvLog UnableClearSlowIO] /\
  events_of (reportSlowIoFromFile kSlowioUnmapCntPath UNMAP)
            (one_file kSlowioUnmapCntPath "abc" true)
  = [EvReadFile kSlowioUnmapCntPath true;
     EvLog (UnableParseInt "abc" kSlowioUnmapCntPath);
     EvWriteFile "0" kSlowioUnmapCntPath true] /\
  events_of (reportSlowIoFromFile kSlowioReadCntPath READ)
            (one_file kSlowioReadCntPath "- 4" false)
  = [EvReadFile kSlowioReadCntPath true;
     EvLog (UnableParseInt "- 4" kSlowioReadCntPath);
     EvWriteFile "0" kSlowioReadCntPath false; EvLog UnableClearSlowIO] /\
  (exists count,
     libc.sscanf_d " +12 ms" 0 = (1, count) /\
     events_of (reportSlowIoFromFile kSlowioSyncCntPath SYNC)
               (one_file kSlowioSyncCntPath " +12 ms" true)
     = EvReadFile kSlowioSyncCntPath true ::
       (if 0 <? count then [EvReportSlowIo SYNC count] else []) ++
       reset_events kSlowioSyncCntPath (mkFile " +12 ms" true)) /\
  fs (world_after (reportSlowIoFromFile kSlowioSyncCntPath SYNC)
                  (one_file kSlowioSyncCntPath "12" true)) !! kSlowioSyncCntPath
  = Some (mkFile "0" true).
Proof.
  destruct (slowio_reset_follows_read READ
              (one_file kSlowioReadCntPath "0" true) (mkFile "0" true) eq_refl)
    as (H0 & _).
  destruct (slowio_reset_follows_read WRITE
              (one_file kSlowioWriteCntPath "5" false) (mkFile "5" false) eq_refl)
    as (_ & H5 & _).
  destruct (slowio_reset_follows_read UNMAP
              (one_file kSlowioUnmapCntPath "abc" true) (mkFile "abc" true) eq_refl)
    as (_ & _ & Habc & _).
  destruct (slowio_reset_follows_read READ
              (one_file kSlowioReadCntPath "- 4" false) (mkFile "- 4" false) eq_refl)
    as (_ & _ & _ & Hnon & _).
  destruct (slowio_reset_follows_read SYNC
              (one_file kSlowioSyncCntPath " +12 ms" true) (mkFile " +12 ms" true) eq_refl)
    as (_ & _ & _ & _ & Hnum & _).
  destruct (slowio_reset_follows_read SYNC
              (one_file kSlowioSyncCntPath "12" true) (mkFile "12" true) eq_refl)
    as (_ & _ & _ & _ & _ & _ & _ & Hw).
  exact (conj (H0 eq_refl) (conj (H5 eq_refl) (conj (Habc eq_refl)
          (conj (Hnon eq_refl) (conj (Hnum eq_refl) Hw))))).
Defined.

(** C1 as stated fails: a counter whose content is "abc" is still
    overwritten with "0". *)
Lemma slowio_unparsed_still_reset :
  let ev := events_of (reportSlowIoFromFile kSlowioReadCntPath READ)
                      (one_file kSlowioReadCntPath "abc" true) in
  ev = [EvReadFile kSlowioReadCntPath true;
        EvLog (UnableParseInt "abc" kSlowioReadCntPath);
        EvWriteFile "0" kSlowioReadCntPath true] /\
  report_calls ev = [] /\
  ~ Forall (fun e => is_write e = false) ev.
Proof.
  simpl. split; [reflexivity|]. split; [reflexivity|].
  intros H. repeat (apply Forall_cons in H as [? H]). discriminate.
Qed.

(** C10.  For each slow-I/O counter, a value that parsed and is zero or
    negative gives no report call, and the write of "0" is still made; a
    value above zero is reported once, before the write. *)
Theorem slowio_only_positive_reported (operation : IoOperation) (w : World)
    (f : File) (count : Z) :
  fs w !! slowio_path operation = Some f ->
  libc.sscanf_d (contents f) 0 = (1, count) ->
  let path := slowio_path operation in
  let ev := events_of (reportSlowIoFromFile path operation) w in
  (count <= 0 -> ev = EvReadFile path true :: reset_events path f) /\
  (0 < count ->
   ev = EvReadFile path true :: EvReportSlowIo operation count :: reset_events path f).
Proof.
  intros Hf Hscan. cbv zeta.
  pose proof (events_of_reportSlowIoFromFile operation w f Hf) as Hev.
  unfold count_events in Hev. rewrite Hscan in Hev. simpl in Hev.
  split; intros Hc; rewrite Hev.
  - destruct (0 <? count) eqn:E; [apply Z.ltb_lt in E; lia | reflexivity].
  - destruct (0 <? count) eqn:E; [reflexivity | apply Z.ltb_ge in E; lia].
Qed.

Lemma slowio_only_positive_reported_witness :
  events_of (reportSlowIoFromFile kSlowioSyncCntPath SYNC)
            (one_file kSlowioSyncCntPath "-3" true)
  = [EvReadFile kSlowioSyncCntPath true; EvWriteFile "0" kSlowioSyncCntPath true] /\
  events_of (reportSlowIoFromFile kSlowioReadCntPath READ)
            (one_file kSlowioReadCntPath "7" true)
  = [EvReadFile kSlowioReadCntPath true; EvReportSlowIo READ 7;
     EvWriteFile "0" kSlowioReadCntPath true].
Proof.
  destruct (slowio_only_positive_reported SYNC
              (one_file kSlowioSyncCntPath "-3" true)
              (mkFile "-3" true) (-3) eq_refl eq_refl) as (Hneg & _).
  destruct (slowio_only_positive_reported READ
              (one_file kSlowioReadCntPath "7" true)
              (mkFile "7" true) 7 eq_refl eq_refl) as (_ & Hpos).
  split; [apply Hneg | apply Hpos]; lia.
Defined.

Lemma events_of_logCodecFailed (w : World) :
  events_of logCodecFailed w = codec_events (fs w !! kCodecPath).
Proof. exact (events_of_source CodecFailures w). Qed.

(** C4.  For the codec state, once the file was read: content that is
    exactly "0" gives no report call; any other content gives exactly one
    hardware-failure report, with the component CODEC, location 0 and the
    error code COMPLETE. *)
Theorem codec_flag_report (w : World) (f : File) :
  fs w !! kCodecPath = Some f ->
  (contents f = "0" ->
   events_of logCodecFailed w = [EvReadFile kCodecPath true]) /\
  (contents f <> "0" ->
   events_of logCodecFailed w =
     [EvReadFile kCodecPath true; EvReportHardwareFailed CODEC 0 COMPLETE]).
Proof.
  intros Hf. rewrite events_of_logCodecFailed, Hf. simpl.
  split; intros Hc.
  - rewrite Hc. reflexivity.
  - apply String.eqb_neq in Hc. rewrite Hc. reflexivity.
Qed.

Lemma codec_flag_report_witness :
  events_of logCodecFailed (one_file kCodecPath "0" false) =
    [EvReadFile kCodecPath true] /\
  events_of logCodecFailed (one_file kCodecPath "error" false) =
    [EvReadFile kCodecPath true; EvReportHardwareFailed CODEC 0 COMPLETE].
Proof.
  destruct (codec_flag_report (one_file kCodecPath "0" false)
              (mkFile "0" false) eq_refl) as (Hzero & _).
  destruct (codec_flag_report (one_file kCodecPath "error" false)
              (mkFile "error" false) eq_refl) as (_ & Hother).
  split; [apply Hzero; reflexivity | apply Hother; discriminate].
Defined.

(** C9.  The codec state is compared with "0" as it was read, untrimmed: a
    "0" with anything before or after it, white space included, gives one
    hardware-failure report; so does the content "0\n". *)
Theorem codec_flag_not_trimmed (w : World) (f : File) :
  fs w !! kCodecPath = Some f ->
  (forall lead trail : string,
     contents f = lead +:+ "0" +:+ trail -> lead +:+ trail <> "" ->
     events_of logCodecFailed w =
       [EvReadFile kCodecPath true; EvReportHardwareFailed CODEC 0 COMPLETE]) /\
  (contents f = "0" +:+ newline ->
   events_of logCodecFailed w =
     [EvReadFile kCodecPath true; EvReportHardwareFailed CODEC 0 COMPLETE]).
Proof.
  intros Hf. rewrite events_of_logCodecFailed, Hf. simpl.
  split.
  - intros lead trail Hc Hne.
    assert (Hneq : contents f <> "0").
    { rewrite Hc. intros H. apply Hne.
      destruct lead as [|c [|d lead]]; simpl in *.
      - injection H as ->. reflexivity.
      - discriminate H.
      - discriminate H. }
    apply String.eqb_neq in Hneq. rewrite Hneq. reflexivity.
  - intros ->. reflexivity.
Qed.

Lemma codec_flag_not_trimmed_witness :
  events_of logCodecFailed (one_file kCodecPath (" 0" +:+ newline) false) =
    [EvReadFile kCodecPath true; EvReportHardwareFailed CODEC 0 COMPLETE] /\
  events_of logCodecFailed (one_file kCodecPath ("0" +:+ newline) false) =
    [EvReadFile kCodecPath true; EvReportHardwareFailed CODEC 0 COMPLETE].
Proof.
  destruct (codec_flag_not_trimmed (one_file kCodecPath (" 0" +:+ newline) false)
              (mkFile (" 0" +:+ newline) false) eq_refl) as (Hany & _).
  destruct (codec_flag_not_trimmed (one_file kCodecPath ("0" +:+ newline) false)
              (mkFile ("0" +:+ newline) false) eq_refl) as (_ & Hnl).
  split; [apply (Hany " " newline); [reflexivity | discriminate] | apply Hnl; reflexivity].
Defined.

Lemma events_of_logBatteryChargeCycles (w : World) :
  events_of logBatteryChargeCycles w =
    charge_cycles_events (fs w !! kCycleCountBinsPath).
Proof. exact (events_of_source ChargeCycles w). Qed.

(** C2, as the code has it.  Once the histogram file was read, one
    charge-cycle report is made.  Its string is the content with every space
    character turned into a comma, one for one (other white space is left as
    it is), and then cut at both ends of the white space found there: what is
    cut is white space only, never a comma, and what is left neither begins
    nor ends with white space and holds no space character.  Content "1 2 3 " is reported as "1,2,3,";
    content "1 2 3\n" is reported as "1,2,3". *)
Theorem charge_cycles_normalized (w : World) (f : File) :
  fs w !! kCycleCountBinsPath = Some f ->
  exists lead reported trail : string,
    events_of logBatteryChargeCycles w =
      [EvReadFile kCycleCountBinsPath true; EvReportChargeCycles reported] /\
    android_base.replace " " "," (contents f) = lead +:+ reported +:+ trail /\
    (forall i : nat,
       String.get i (android_base.replace " " "," (contents f)) =
         option_map (fun c => if Ascii.eqb c " " then ","%char else c)
                    (String.get i (contents f))) /\
    all_space lead = true /\ all_space trail = true /\
    starts_with_space reported = false /\ ends_with_space reported = false /\
    (forall i : nat, String.get i reported <> Some " "%char) /\
    (contents f = "1 2 3 " -> reported = "1,2,3,") /\
    (contents f = "1 2 3" +:+ newline -> reported = "1,2,3").
Proof.
  intros Hf.
  destruct (Trim_split (android_base.replace " " "," (contents f)))
    as (lead & trail & Hsplit & Hl & Ht & Hs & He).
  exists lead, (android_base.Trim (android_base.replace " " "," (contents f))), trail.
  rewrite events_of_logBatteryChargeCycles, Hf. simpl.
  repeat split; try assumption.
  - intros i. apply replace_get.
  - intros i Hi.
    apply (replace_space_gone (contents f) (String.length lead + i)).
    rewrite Hsplit, get_append_r. apply get_append_l. exact Hi.
  - intros ->. reflexivity.
  - intros ->. reflexivity.
Qed.

Lemma charge_cycles_normalized_witness :
  exists lead reported trail : string,
    events_of logBatteryChargeCycles
      (one_file kCycleCountBinsPath ("1 2 3" +:+ newline) false) =
      [EvReadFile kCycleCountBinsPath true; EvReportChargeCycles reported] /\
    android_base.replace " " "," ("1 2 3" +:+ newline) = lead +:+ reported +:+ trail /\
    reported = "1,2,3".
Proof.
  destruct (charge_cycles_normalized
              (one_file kCycleCountBinsPath ("1 2 3" +:+ newline) false)
              (mkFile ("1 2 3" +:+ newline) false) eq_refl)
    as (lead & reported & trail & Hev & Hsplit & _ & _ & _ & _ & _ & _ & _ & Hex).
  exists lead, reported, trail. split; [exact Hev|]. split; [exact Hsplit|].
  apply Hex. reflexivity.
Defined.

(** C2 as stated fails: the space that ends "1 2 3 " becomes a comma, and
    the comma is not trimmed. *)
Lemma charge_cycles_trailing_space_kept :
  events_of logBatteryChargeCycles (one_file kCycleCountBinsPath "1 2 3 " false) =
    [EvReadFile kCycleCountBinsPath true; EvReportChargeCycles "1,2,3,"] /\
  events_of logBatteryChargeCycles (one_file kCycleCountBinsPath "1 2 3 " false) <>
    [EvReadFile kCycleCountBinsPath true; EvReportChargeCycles "1,2,3"].
Proof. split; [reflexivity | discriminate]. Qed.

Lemma events_of_logSpeakerImpedance (w : World) :
  events_of logSpeakerImpedance w = impedance_events (fs w !! kImpedancePath).
Proof. exact (events_of_source SpeakerImpedance w). Qed.

(** C5, as the code has it.  For the speaker impedance, once the file was
    read: two floating values are reported when [sscanf] stored two, that
    is, when the first value is followed at once by a comma and the comma,
    after optional white space, by the second value; the reports are channel
    0 then channel 1, each value multiplied by 1000.  Content "4.5,5.25"
    gives the two reports 4500 and 5250.  When [sscanf] does not store two
    values, as for "4.5" alone and for the space-separated "4.5 5.25", no
    report call is made, only a log line. *)
Theorem speaker_impedance_pair (w : World) (f : File) :
  fs w !! kImpedancePath = Some f ->
  let ev := events_of logSpeakerImpedance w in
  let unparsed :=
    [EvReadFile kImpedancePath true;
     EvLog (UnableParseImpedance (libc.c_str (contents f)))] in
  (forall n l r, libc.sscanf_g_g (contents f) = (n, l, r) -> n <> 2 -> ev = unparsed) /\
  (forall l r, libc.sscanf_g_g (contents f) = (2, l, r) ->
     exists x y rest rest',
       libc.ct_float (libc.c_str (contents f)) = inr (x, String "," rest) /\
       libc.ct_float rest = inr (y, rest') /\
       ev = [EvReadFile kImpedancePath true;
             EvReportSpeakerImpedance 0 (libc.float_mul x (libc.float_of_Z 1000));
             EvReportSpeakerImpedance 1 (libc.float_mul y (libc.float_of_Z 1000))]) /\
  (contents f = "4.5,5.25" ->
     ev = [EvReadFile kImpedancePath true;
           EvReportSpeakerImpedance 0 (libc.float_of_Z 4500);
           EvReportSpeakerImpedance 1 (libc.float_of_Z 5250)] /\
     libc.float_trunc (libc.float_of_Z 4500) = Some 4500 /\
     libc.float_trunc (libc.float_of_Z 5250) = Some 5250) /\
  (contents f = "4.5" -> ev = unparsed) /\
  (contents f = "4.5 5.25" -> ev = unparsed).
Proof.
  intros Hf. cbv zeta. rewrite events_of_logSpeakerImpedance, Hf. simpl.
  repeat split.
  - intros n l r Hs Hn. rewrite Hs.
    destruct n as [|[q|[q|q|]|]|]; try reflexivity.
    + congruence.
  - intros l r Hs.
    destruct (sscanf_g_g_two _ _ _ Hs) as (x & y & rest & rest' & -> & -> & H1 & H2).
    exists x, y, rest, rest'. rewrite Hs. auto.
  - rewrite H. reflexivity.
  - intros ->. reflexivity.
  - intros ->. reflexivity.
Qed.

Lemma speaker_impedance_pair_witness :
  events_of logSpeakerImpedance (one_file kImpedancePath "4.5,5.25" false) =
    [EvReadFile kImpedancePath true;
     EvReportSpeakerImpedance 0 (libc.float_of_Z 4500);
     EvReportSpeakerImpedance 1 (libc.float_of_Z 5250)] /\
  events_of logSpeakerImpedance (one_file kImpedancePath "4.5" false) =
    [EvReadFile kImpedancePath true; EvLog (UnableParseImpedance "4.5")] /\
  events_of logSpeakerImpedance (one_file kImpedancePath "4.5 5.25" false) =
    [EvReadFile kImpedancePath true; EvLog (UnableParseImpedance "4.5 5.25")] /\
  events_of logSpeakerImpedance (one_file kImpedancePath "ohm" false) =
    [EvReadFile kImpedancePath true; EvLog (UnableParseImpedance "ohm")] /\
  (exists x y rest rest',
     libc.ct_float "8,6.5" = inr (x, String "," rest) /\
     libc.ct_float rest = inr (y, rest') /\
     events_of logSpeakerImpedance (one_file kImpedancePath "8,6.5" false) =
       [EvReadFile kImpedancePath true;
        EvReportSpeakerImpedance 0 (libc.float_mul x (libc.float_of_Z 1000));
        EvReportSpeakerImpedance 1 (libc.float_mul y (libc.float_of_Z 1000))]).
Proof.
  destruct (speaker_impedance_pair (one_file kImpedancePath "4.5,5.25" false)
              (mkFile "4.5,5.25" false) eq_refl) as (_ & _ & Hpair & _).
  destruct (speaker_impedance_pair (one_file kImpedancePath "4.5" false)
              (mkFile "4.5" false) eq_refl) as (_ & _ & _ & Hone & _).
  destruct (speaker_impedance_pair (one_file kImpedancePath "4.5 5.25" false)
              (mkFile "4.5 5.25" false) eq_refl) as (_ & _ & _ & _ & Hspace).
  destruct (speaker_impedance_pair (one_file kImpedancePath "ohm" false)
              (mkFile "ohm" false) eq_refl) as (Hnot & _).
  destruct (speaker_impedance_pair (one_file kImpedancePath "8,6.5" false)
              (mkFile "8,6.5" false) eq_refl) as (_ & Htwo & _).
  split; [exact (proj1 (Hpair eq_refl))|].
  split; [exact (Hone eq_refl)|].
  split; [exact (Hspace eq_refl)|].
  split; [apply (Hnot 0 None None); [reflexivity | discriminate]|].
  exact (Htwo _ _ eq_refl).
Defined.

(** C5 as stated fails: two values separated by a space are not parsed,
    and nothing is reported. *)
Lemma speaker_impedance_space_separated :
  let ev := events_of logSpeakerImpedance (one_file kImpedancePath "4.5 5.25" false) in
  libc.sscanf_g_g "4.5 5.25" = (1, Some (libc.strtof "4.5"), None) /\
  ev = [EvReadFile kImpedancePath true; EvLog (UnableParseImpedance "4.5 5.25")] /\
  report_calls ev = [].
Proof. repeat split; reflexivity. Qed.

(** C3.  When the service cannot be acquired, the cycle consists of the
    failed acquisition and one log line: no file is read, no counter is
    written, no report call is made, and the world is left as it was.  Only
    that cycle is lost: in the loop, a tick that finds the service down is
    followed by the rest of the script, and a start that finds the service
    down still arms the timer and enters the loop. *)
Theorem sink_unavailable_skips_cycle (w : World) :
  service_running w = false ->
  let skipped := [EvTryGetService false; EvLog UnableConnect] in
  (forall px t,
     logAll (mkState w px t) = Some (tt, mkState w null (t ++ skipped))) /\
  (forall st elapsed rest,
     elapsed (world st) = w ->
     collect_loop (expired elapsed :: rest) st =
       collect_loop rest (mkState w null (trace st ++ skipped))) /\
  (forall env st,
     world st = w -> 0 <= timerfd_create_ret env -> timerfd_settime_ret env = 0 ->
     collect env st =
       collect_loop (timer env)
         (mkState w null
            (trace st ++
             [EvTimerfdCreate (timerfd_create_ret env); EvSleep 30] ++ skipped ++
             [EvTimerfdSettime 86400 86400 0]))).
Proof.
  intros Hdown. cbv zeta.
  assert (Hcycle : forall px t,
             logAll (mkState w px t) =
               Some (tt, mkState w null (t ++ [EvTryGetService false; EvLog UnableConnect])))
    by (intros px t; apply (logAll_unavailable (mkState w px t)); exact Hdown).
  split; [exact Hcycle|]. split.
  - intros st elapsed rest Hw.
    rewrite collect_loop_step. cbn [read_timerfd sys_read after_read].
    cbn [Z.ltb Z.compare andb]. rewrite Hw.
    unfold set_world. rewrite Hcycle. reflexivity.
  - intros env st Hw Hfd Hset. apply Z.ltb_ge in Hfd.
    rewrite collect_step. cbv zeta. cbn [trace]. rewrite Hfd, Hw, Hcycle, Hset.
    cbn [Z.eqb negb world pixelstats_ trace]. rewrite <- !app_assoc. reflexivity.
Qed.

Lemma sink_unavailable_skips_cycle_witness :
  logAll (mkState (mkWorld ∅ false) proxy []) =
    Some (tt, mkState (mkWorld ∅ false) null [EvTryGetService false; EvLog UnableConnect]) /\
  collect_loop [expired id; failed 9] (mkState (mkWorld ∅ false) null []) =
    Some (Returned,
          mkState (mkWorld ∅ false) null
            [EvTryGetService false; EvLog UnableConnect; EvLog TimerfdError]) /\
  collect (mkEnv 3 0 []) (mkState (mkWorld ∅ false) null []) =
    Some (Blocked,
          mkState (mkWorld ∅ false) null
            [EvTimerfdCreate 3; EvSleep 30; EvTryGetService false;
             EvLog UnableConnect; EvTimerfdSettime 86400 86400 0]).
Proof.
  destruct (sink_unavailable_skips_cycle (mkWorld ∅ false) eq_refl)
    as (Hcycle & Hloop & Hstart).
  split; [exact (Hcycle proxy [])|]. split.
  - rewrite (Hloop (mkState (mkWorld ∅ false) null []) id [failed 9] eq_refl).
    reflexivity.
  - rewrite (Hstart (mkEnv 3 0 []) (mkState (mkWorld ∅ false) null []) eq_refl);
      [reflexivity | simpl; lia | reflexivity].
Defined.

(** C6.  In a cycle that acquired the service, what is done for a source
    depends on that source's file alone: two worlds that agree on the file of
    a source give the same slice of the trace for it, whatever the files of
    the other sources are like (missing, unparsable, not writable, or fine).
    The slice is what the source's reader does when run on its own, and it
    begins with the read of the source's file. *)
Theorem source_failure_isolated (s : Source) (w1 w2 : World) :
  service_running w1 = true ->
  service_running w2 = true ->
  fs w1 !! source_path s = fs w2 !! source_path s ->
  source_slice (source_path s) (cycle_events w1) =
    source_slice (source_path s) (cycle_events w2) /\
  source_slice (source_path s) (cycle_events w1) = events_of (run_source s) w1 /\
  exists body,
    source_slice (source_path s) (cycle_events w1) =
      EvReadFile (source_path s) (bool_decide (is_Some (fs w1 !! source_path s))) :: body.
Proof.
  intros H1 H2 Hsame.
  rewrite !source_slice_cycle by assumption.
  rewrite events_of_source, Hsame.
  split; [reflexivity|]. split; [reflexivity|].
  destruct (source_events_shape s (fs w2 !! source_path s)) as (body & -> & _).
  exists body. reflexivity.
Qed.

Lemma source_failure_isolated_witness :
  source_slice kSlowioWriteCntPath (cycle_events mixed_world) =
  source_slice kSlowioWriteCntPath
    (cycle_events (one_file kSlowioWriteCntPath "7" true)).
Proof.
  exact (proj1 (source_failure_isolated (SlowIO WRITE) mixed_world
                  (one_file kSlowioWriteCntPath "7" true)
                  eq_refl eq_refl eq_refl)).
Defined.

(** C7.  A cycle that acquired the service is, in this order: the
    acquisition; all of the charge cycles; all of the codec failures; all of
    the slow-I/O counters read, write, unmap and sync, one after the other;
    all of the speaker impedance; the release of the service.  Each part is
    what its reader does on the world the cycle started in, and after the
    cycle [pixelstats_] is null, whatever the sources did. *)
Theorem logAll_fixed_order (st : State) :
  service_running (world st) = true ->
  exists st',
    logAll st = Some (tt, st') /\
    pixelstats_ st' = null /\
    trace st' =
      trace st ++ [EvTryGetService true] ++
      events_of logBatteryChargeCycles (world st) ++
      events_of logCodecFailed (world st) ++
      events_of (reportSlowIoFromFile kSlowioReadCntPath READ) (world st) ++
      events_of (reportSlowIoFromFile kSlowioWriteCntPath WRITE) (world st) ++
      events_of (reportSlowIoFromFile kSlowioUnmapCntPath UNMAP) (world st) ++
      events_of (reportSlowIoFromFile kSlowioSyncCntPath SYNC) (world st) ++
      events_of logSpeakerImpedance (world st) ++
      [EvClear].
Proof.
  intros Hup. eexists. split; [apply logAll_acquired; exact Hup|].
  split; [reflexivity|]. cbn [trace]. f_equal.
  rewrite (events_of_source ChargeCycles), (events_of_source CodecFailures),
    (events_of_source (SlowIO READ)), (events_of_source (SlowIO WRITE)),
    (events_of_source (SlowIO UNMAP)), (events_of_source (SlowIO SYNC)),
    (events_of_source SpeakerImpedance).
  unfold sources. simpl. rewrite app_nil_r, <- !app_assoc. reflexivity.
Qed.

Lemma logAll_fixed_order_witness :
  exists st',
    logAll (mkState (one_file kSlowioUnmapCntPath "2" true) null []) = Some (tt, st') /\
    pixelstats_ st' = null.
Proof.
  destruct (logAll_fixed_order
              (mkState (one_file kSlowioUnmapCntPath "2" true) null []) eq_refl)
    as (st' & H & Hnull & _).
  exists st'. split; assumption.
Defined.

(** C8.  When the timer cannot be created, [collect] logs and returns
    before any cycle.  When the timer cannot be armed, [collect] logs and
    returns after the cycle made at start, and nothing the timer would have
    delivered is looked at.  A read of the timer that a signal interrupted
    leaves no mark: the run is the one of the script without the interrupted
    reads. *)
Theorem timer_failures_and_interrupts (env : Env) (st : State) :
  (timerfd_create_ret env < 0 ->
   collect env st =
     Some (Returned,
           mkState (world st) (pixelstats_ st)
             (trace st ++ [EvTimerfdCreate (timerfd_create_ret env);
                           EvLog UnableCreateTimerfd]))) /\
  (0 <= timerfd_create_ret env -> timerfd_settime_ret env <> 0 ->
   exists st1,
     logAll (mkState (world st) (pixelstats_ st)
               (trace st ++ [EvTimerfdCreate (timerfd_create_ret env); EvSleep 30]))
       = Some (tt, st1) /\
     collect env st =
       Some (Returned,
             mkState (world st1) (pixelstats_ st1)
               (trace st1 ++ [EvTimerfdSettime 86400 86400 (timerfd_settime_ret env);
                              EvLog UnableSetTimer]))) /\
  collect (mkEnv (timerfd_create_ret env) (timerfd_settime_ret env)
                 (without_interrupts (timer env))) st
    = collect env st.
Proof.
  rewrite !collect_step. cbv zeta.
  cbn [timerfd_create_ret timerfd_settime_ret timer trace world pixelstats_].
  repeat split.
  - intros Hneg. apply Z.ltb_lt in Hneg. rewrite Hneg.
    rewrite <- app_assoc. reflexivity.
  - intros Hpos Hset. apply Z.ltb_ge in Hpos. apply Z.eqb_neq in Hset.
    rewrite Hpos, Hset. rewrite <- !app_assoc. cbn [app negb].
    destruct (logAll_total
                (mkState (world st) (pixelstats_ st)
                   (trace st ++ [EvTimerfdCreate (timerfd_create_ret env); EvSleep 30])))
      as (st1 & Hcycle).
    exists st1. split; [exact Hcycle|]. rewrite Hcycle.
    rewrite <- app_assoc. reflexivity.
  - destruct (timerfd_create_ret env <? 0); [reflexivity|].
    destruct (logAll _) as [[[] st1]|]; [|reflexivity].
    destruct (negb (timerfd_settime_ret env =? 0)); [reflexivity|].
    apply collect_loop_without_interrupts.
Qed.

Lemma timer_failures_and_interrupts_witness :
  collect (mkEnv (-1) 0 [expired id])
          (mkState (one_file kCodecPath "1" false) null []) =
  Some (Returned,
        mkState (one_file kCodecPath "1" false) null
          [EvTimerfdCreate (-1); EvLog UnableCreateTimerfd]) /\
  (exists st1,
     logAll (mkState (mkWorld ∅ false) null [EvTimerfdCreate 3; EvSleep 30])
       = Some (tt, st1) /\
     collect (mkEnv 3 (-1) [expired id]) (mkState (mkWorld ∅ false) null []) =
       Some (Returned,
             mkState (world st1) (pixelstats_ st1)
               (trace st1 ++ [EvTimerfdSettime 86400 86400 (-1); EvLog UnableSetTimer]))).
Proof.
  destruct (timer_failures_and_interrupts (mkEnv (-1) 0 [expired id])
              (mkState (one_file kCodecPath "1" false) null [])) as (Hcreate & _).
  destruct (timer_failures_and_interrupts (mkEnv 3 (-1) [expired id])
              (mkState (mkWorld ∅ false) null [])) as (_ & Harm & _).
  split; [apply Hcreate; simpl; lia | apply Harm; simpl; lia].
Defined.

(* ===================================================================== *)
(** * Further properties of the collector                                  *)
(* ===================================================================== *)

(** ** One cycle, as a whole *)

Lemma cycle_events_unavailable (w : World) :
  service_running w = false ->
  cycle_events w = [EvTryGetService false; EvLog UnableConnect].
Proof.
  intros Hdown. unfold cycle_events.
  rewrite logAll_unavailable by exact Hdown. reflexivity.
Qed.

Lemma cycle_world_acquired (w : World) :
  service_running w = true ->
  cycle_world w = foldl (fun w s => source_world s w) w sources.
Proof.
  intros Hup. unfold cycle_world, world_after.
  rewrite logAll_acquired by exact Hup. reflexivity.
Qed.

Lemma cycle_world_unavailable (w : World) :
  service_running w = false -> cycle_world w = w.
Proof.
  intros Hdown. unfold cycle_world, world_after.
  rewrite logAll_unavailable by exact Hdown. reflexivity.
Qed.

(** A cycle from any state: the world it leaves, a null [pixelstats_], and
    its events after those already in the trace. *)
Lemma logAll_spec (st : State) :
  logAll st =
    Some (tt, mkState (cycle_world (world st)) null
                (trace st ++ cycle_events (world st))).
Proof.
  destruct (service_running (world st)) eqn:Hs.
  - rewrite logAll_acquired, cycle_world_acquired, cycle_events_acquired
      by exact Hs. reflexivity.
  - rewrite logAll_unavailable, cycle_world_unavailable, cycle_events_unavailable
      by exact Hs. reflexivity.
Qed.

Lemma filter_concat_map {A B} (p : B -> bool) (f : A -> list B) (l : list A) :
  List.filter p (concat (map f l)) = concat (map (fun a => List.filter p (f a)) l).
Proof.
  induction l as [|a l IH]; simpl; [reflexivity|].
  rewrite List.filter_app, IH. reflexivity.
Qed.

Lemma filter_no_marker (p : Event -> bool) (body : list Event) :
  (forall e, p e = true -> is_marker e = true) ->
  no_marker body -> List.filter p body = [].
Proof.
  intros Hp. induction 1 as [|e body He _ IH]; simpl; [reflexivity|].
  destruct (p e) eqn:Hpe; [|exact IH].
  apply Hp in Hpe. congruence.
Qed.

Ltac source_cases :=
  unfold slowio_events, count_events, reset_events;
  repeat match goal with
         | |- context [match ?x with _ => _ end] => destruct x; simpl
         end.

Lemma source_events_reads (s : Source) (o : option File) :
  List.filter is_read (source_events s o) =
    [EvReadFile (source_path s) (bool_decide (is_Some o))].
Proof.
  destruct (source_events_shape s o) as (body & -> & Hbody). simpl.
  rewrite (filter_no_marker is_read) by (assumption || (intros []; simpl; congruence)).
  reflexivity.
Qed.

Lemma source_events_acquire (s : Source) (o : option File) :
  List.filter is_acquire (source_events s o) = [].
Proof.
  destruct (source_events_shape s o) as (body & -> & Hbody). simpl.
  apply filter_no_marker; [intros []; simpl; congruence | exact Hbody].
Qed.

Lemma source_events_writes (s : Source) (o : option File) :
  List.filter is_write (source_events s o) = source_writes s o.
Proof. destruct s, o as [f|]; simpl; source_cases; reflexivity. Qed.

Lemma source_events_reports (s : Source) (o : option File) :
  (length (report_calls (source_events s o)) <= report_bound s)%nat.
Proof.
  unfold report_calls.
  destruct s, o as [f|]; simpl; source_cases; simpl; lia.
Qed.

(** X1.  A source whose file cannot be read is skipped: its reader makes
    the one read attempt, writes the log line of its own, makes no report
    call and no write, and leaves the world as it was. *)
Theorem unreadable_source_skipped (s : Source) (w : World) :
  fs w !! source_path s = None ->
  events_of (run_source s) w =
    [EvReadFile (source_path s) false; EvLog (unreadable_line s)] /\
  world_after (run_source s) w = w.
Proof.
  intros Hnone. rewrite events_of_source, world_after_source, Hnone.
  destruct s; simpl; try (split; reflexivity).
  simpl in Hnone. unfold reset_world. rewrite Hnone. split; reflexivity.
Qed.

Lemma unreadable_source_skipped_witness :
  events_of (reportSlowIoFromFile kSlowioUnmapCntPath UNMAP)
            (one_file kCodecPath "0" true) =
    [EvReadFile kSlowioUnmapCntPath false; EvLog (UnableRead kSlowioUnmapCntPath)] /\
  world_after (reportSlowIoFromFile kSlowioUnmapCntPath UNMAP)
              (one_file kCodecPath "0" true) = one_file kCodecPath "0" true.
Proof.
  exact (unreadable_source_skipped (SlowIO UNMAP) (one_file kCodecPath "0" true) eq_refl).
Defined.

(** X2.  A cycle that acquired the service reads the file of every source
    exactly once, in the order of the sources, whether or not the reads
    before it succeeded; each read succeeds exactly when the file is there. *)
Theorem cycle_reads_every_source_once (w : World) :
  service_running w = true ->
  List.filter is_read (cycle_events w) =
    map (fun s => EvReadFile (source_path s)
                    (bool_decide (is_Some (fs w !! source_path s))))
        sources.
Proof.
  intros Hup. rewrite cycle_events_acquired by exact Hup.
  cbn [List.filter is_read]. rewrite List.filter_app, filter_concat_map.
  cbn [List.filter is_read]. rewrite app_nil_r.
  induction sources as [|s l IH]; [reflexivity|].
  cbn [map concat]. rewrite source_events_reads, IH. reflexivity.
Qed.

Lemma cycle_reads_every_source_once_witness :
  List.filter is_read (cycle_events mixed_world) =
    [EvReadFile kCycleCountBinsPath false; EvReadFile kCodecPath false;
     EvReadFile kSlowioReadCntPath true; EvReadFile kSlowioWriteCntPath true;
     EvReadFile kSlowioUnmapCntPath false; EvReadFile kSlowioSyncCntPath false;
     EvReadFile kImpedancePath true].
Proof.
  rewrite (cycle_reads_every_source_once mixed_world eq_refl). reflexivity.
Defined.

(** X3.  The only writes of a cycle are the resets: one write of "0" to
    each slow-I/O counter that could be read, in the order read, write,
    unmap, sync, and nothing else; a counter that could not be read is not
    written, and no other file ever is. *)
Theorem cycle_writes_only_resets (w : World) :
  service_running w = true ->
  List.filter is_write (cycle_events w) =
    concat (map (fun operation =>
                   match fs w !! slowio_path operation with
                   | Some f => [EvWriteFile "0" (slowio_path operation) (writable f)]
                   | None => []
                   end) counters).
Proof.
  intros Hup. rewrite cycle_events_acquired by exact Hup.
  cbn [List.filter is_write]. rewrite List.filter_app, filter_concat_map.
  cbn [List.filter is_write]. rewrite app_nil_r.
  unfold sources, counters. cbn [map concat].
  rewrite !source_events_writes. cbn [source_writes source_path].
  destruct (fs w !! kCycleCountBinsPath), (fs w !! kCodecPath), (fs w !! kImpedancePath);
    simpl; rewrite ?app_nil_r; reflexivity.
Qed.

Lemma cycle_writes_only_resets_witness :
  List.filter is_write (cycle_events mixed_world) =
    [EvWriteFile "0" kSlowioReadCntPath false; EvWriteFile "0" kSlowioWriteCntPath true].
Proof.
  rewrite (cycle_writes_only_resets mixed_world eq_refl). reflexivity.
Defined.

(** X4.  A cycle makes at most eight report calls, whatever the files
    hold.  When the service is not acquired it makes none.  When it is, the
    report calls of the cycle are those of the seven readers, in order, and
    each reader makes at most one, but for the speaker impedance, which
    makes at most two. *)
Theorem cycle_report_budget (w : World) :
  (length (report_calls (cycle_events w)) <= 8)%nat /\
  (service_running w = false -> report_calls (cycle_events w) = []) /\
  (service_running w = true ->
   report_calls (cycle_events w) =
     concat (map (fun s => report_calls (events_of (run_source s) w)) sources)) /\
  (forall s,
     (length (report_calls (events_of (run_source s) w)) <=
      match s with SpeakerImpedance => 2 | _ => 1 end)%nat).
Proof.
  assert (Hup : service_running w = true ->
                report_calls (cycle_events w) =
                  concat (map (fun s => report_calls (events_of (run_source s) w))
                              sources)).
  { intros Hs. rewrite cycle_events_acquired by exact Hs. unfold report_calls.
    cbn [List.filter is_report]. rewrite List.filter_app, filter_concat_map.
    cbn [List.filter is_report]. rewrite app_nil_r.
    induction sources as [|s l IH]; [reflexivity|].
    cbn [map concat]. rewrite events_of_source, IH. reflexivity. }
  assert (Hdown : service_running w = false -> report_calls (cycle_events w) = []).
  { intros Hs. rewrite cycle_events_unavailable by exact Hs. reflexivity. }
  assert (Heach : forall s,
             (length (report_calls (events_of (run_source s) w)) <=
              match s with SpeakerImpedance => 2 | _ => 1 end)%nat).
  { intros s. rewrite events_of_source.
    pose proof (source_events_reports s (fs w !! source_path s)) as H.
    destruct s; exact H. }
  split; [|split; [exact Hdown | split; [exact Hup | exact Heach]]].
  destruct (service_running w) eqn:Hs.
  - rewrite Hup by reflexivity. unfold sources. cbn [map concat].
    rewrite !length_app. cbn [length].
    pose proof (Heach ChargeCycles). pose proof (Heach CodecFailures).
    pose proof (Heach (SlowIO READ)). pose proof (Heach (SlowIO WRITE)).
    pose proof (Heach (SlowIO UNMAP)). pose proof (Heach (SlowIO SYNC)).
    pose proof (Heach SpeakerImpedance).
    cbv beta iota in *. lia.
  - rewrite Hdown by reflexivity. simpl. lia.
Qed.

Lemma cycle_report_budget_witness :
  report_calls (cycle_events (mkWorld ∅ false)) = [] /\
  report_calls (cycle_events mixed_world) = [EvReportSlowIo WRITE 7].
Proof.
  destruct (cycle_report_budget (mkWorld ∅ false)) as (_ & Hdown & _).
  destruct (cycle_report_budget mixed_world) as (_ & _ & Hup & _).
  split; [exact (Hdown eq_refl)|].
  rewrite (Hup eq_refl). reflexivity.
Defined.

(** X5.  The speaker impedance is reported as a pair or not at all: the
    reader makes either no report call or the two calls for channel 0 and
    channel 1, in that order, never one of them alone; it writes nothing and
    leaves the world as it was. *)
Theorem impedance_pair_or_nothing (w : World) :
  world_after logSpeakerImpedance w = w /\
  List.filter is_write (events_of logSpeakerImpedance w) = [] /\
  (report_calls (events_of logSpeakerImpedance w) = [] \/
   exists x y,
     report_calls (events_of logSpeakerImpedance w) =
       [EvReportSpeakerImpedance 0 x; EvReportSpeakerImpedance 1 y]).
Proof.
  split; [exact (world_after_source SpeakerImpedance w)|].
  rewrite events_of_logSpeakerImpedance. unfold report_calls, impedance_events.
  destruct (fs w !! kImpedancePath) as [f|]; [|split; [reflexivity | left; reflexivity]].
  destruct (libc.sscanf_g_g (contents f)) as [[n l] r].
  destruct n as [|[q|[q|q|]|]|], l as [x|], r as [y|]; simpl;
    (split; [reflexivity|]); eauto.
Qed.

Lemma in_source_events_slowio (s : Source) (o : option File)
    (operation : IoOperation) (n : Z) :
  In (EvReportSlowIo operation n) (source_events s o) ->
  s = SlowIO operation /\
  exists f, o = Some f /\ libc.sscanf_d (contents f) 0 = (1, n) /\ 0 < n.
Proof.
  destruct s as [| |op|], o as [f|]; simpl;
    try (source_cases; simpl; intuition discriminate).
  unfold count_events, reset_events.
  destruct (libc.sscanf_d (contents f) 0) as [k c] eqn:Hscan.
  destruct (k =? 1) eqn:Hk; simpl.
  - apply Z.eqb_eq in Hk. subst k.
    destruct (0 <? c) eqn:Hc; simpl.
    + intros [H|[H|H]]; try discriminate H.
      * injection H as -> ->. apply Z.ltb_lt in Hc. eauto.
      * destruct (writable f); simpl in H; intuition discriminate.
    + intros [H|H]; [discriminate H|].
      destruct (writable f); simpl in H; intuition discriminate.
  - intros [H|[H|H]]; try discriminate H.
    destruct (writable f); simpl in H; intuition discriminate.
Qed.

(** X6.  A slow-I/O report of a cycle always carries a count above zero
    that fits an [int32_t], for the counter whose file was read in this
    cycle and parsed to that count. *)
Theorem reported_count_positive (w : World) (operation : IoOperation) (n : Z) :
  In (EvReportSlowIo operation n) (cycle_events w) ->
  0 < n <= libc.INT32_MAX /\
  exists f,
    fs w !! slowio_path operation = Some f /\
    libc.sscanf_d (contents f) 0 = (1, n).
Proof.
  destruct (service_running w) eqn:Hs.
  - rewrite cycle_events_acquired by exact Hs.
    intros [H|H]; [discriminate H|].
    apply in_app_or in H as [H|[H|[]]]; [|discriminate H].
    apply in_concat in H as (seg & Hseg & Hin).
    apply in_map_iff in Hseg as (s & <- & _).
    apply in_source_events_slowio in Hin as (-> & f & Hf & Hscan & Hpos).
    split; [|exists f; split; assumption].
    split; [exact Hpos|]. apply (sscanf_d_range _ _ _ Hscan).
  - rewrite cycle_events_unavailable by exact Hs.
    intros [H|[H|[]]]; discriminate H.
Qed.

Lemma reported_count_positive_witness :
  0 < 7 <= libc.INT32_MAX /\
  exists f,
    fs (one_file kSlowioReadCntPath "7" true) !! kSlowioReadCntPath = Some f /\
    libc.sscanf_d (contents f) 0 = (1, 7).
Proof.
  apply (reported_count_positive (one_file kSlowioReadCntPath "7" true) READ 7).
  vm_compute. tauto.
Defined.

(** ** The world after a cycle *)

Lemma reset_world_lookup (p q : string) (w : World) :
  fs (reset_world p w) !! q =
    if decide (p = q) then after_reset (fs w !! p) else fs w !! q.
Proof.
  destruct (decide (p = q)) as [<-|Hne]; [|apply reset_world_lookup_ne; exact Hne].
  unfold reset_world, after_reset.
  destruct (fs w !! p) as [f|] eqn:Hf; [|exact Hf].
  destruct (writable f); [apply lookup_insert_eq | exact Hf].
Qed.

Lemma is_counter_path_false (p : string) :
  is_counter_path p = false <-> forall operation, slowio_path operation <> p.
Proof.
  unfold is_counter_path, counters. cbn [existsb]. rewrite !orb_false_iff.
  rewrite !String.eqb_neq. split.
  - intros (? & ? & ? & ? & _) []; assumption.
  - intros H. repeat split; apply (H _).
Qed.

Lemma is_counter_path_slowio (operation : IoOperation) :
  is_counter_path (slowio_path operation) = true.
Proof. destruct operation; reflexivity. Qed.

Lemma cycle_world_lookup (w : World) (p : string) :
  service_running w = true ->
  fs (cycle_world w) !! p =
    if is_counter_path p then after_reset (fs w !! p) else fs w !! p.
Proof.
  intros Hup. rewrite cycle_world_acquired by exact Hup.
  unfold sources. cbn [foldl source_world slowio_path].
  rewrite !reset_world_lookup.
  repeat match goal with
         | |- context [decide (?a = ?b)] =>
             let E := fresh "E" in
             destruct (decide (a = b)) as [E|E];
             [ try (exfalso; revert E; paths_differ); try subst p
             | try (exfalso; apply E; reflexivity) ]
         end; try reflexivity.
  assert (is_counter_path p = false) as ->; [|reflexivity].
  apply is_counter_path_false. intros []; assumption.
Qed.

Lemma cycle_world_service (w : World) :
  service_running (cycle_world w) = service_running w.
Proof.
  destruct (service_running w) eqn:Hs.
  - rewrite cycle_world_acquired by exact Hs.
    unfold sources. cbn [foldl source_world]. rewrite !reset_world_service. exact Hs.
  - rewrite cycle_world_unavailable by exact Hs. exact Hs.
Qed.

Lemma after_reset_idempotent (o : option File) :
  after_reset (after_reset o) = after_reset o.
Proof. destruct o as [[c []]|]; reflexivity. Qed.

Lemma World_eq (a b : World) :
  fs a = fs b -> service_running a = service_running b -> a = b.
Proof. destruct a, b; simpl; intros -> ->; reflexivity. Qed.

(** X7.  A cycle that acquired the service changes the four slow-I/O
    counters and nothing else: a counter that was read and whose write
    succeeded holds "0" afterwards, a counter whose write failed keeps its
    content, every other path is as before, no file appears or disappears,
    and the service is still running. *)
Theorem cycle_resets_counters_only (w : World) :
  service_running w = true ->
  service_running (cycle_world w) = true /\
  (forall operation,
     fs (cycle_world w) !! slowio_path operation =
       after_reset (fs w !! slowio_path operation)) /\
  (forall p, is_counter_path p = false -> fs (cycle_world w) !! p = fs w !! p) /\
  (forall p, is_Some (fs (cycle_world w) !! p) <-> is_Some (fs w !! p)).
Proof.
  intros Hup. split; [rewrite cycle_world_service; exact Hup|].
  split; [|split].
  - intros operation. rewrite cycle_world_lookup by exact Hup.
    rewrite is_counter_path_slowio. reflexivity.
  - intros p Hp. rewrite cycle_world_lookup by exact Hup. rewrite Hp. reflexivity.
  - intros p. rewrite cycle_world_lookup by exact Hup.
    destruct (is_counter_path p); [|reflexivity].
    destruct (fs w !! p) as [[c []]|]; simpl; split; intros H;
      try exact H; eexists; reflexivity.
Qed.

Lemma cycle_resets_counters_only_witness :
  fs (cycle_world mixed_world) !! kSlowioWriteCntPath = Some (mkFile "0" true) /\
  fs (cycle_world mixed_world) !! kSlowioReadCntPath = Some (mkFile "abc" false) /\
  fs (cycle_world mixed_world) !! kImpedancePath = Some (mkFile "4.5" true).
Proof.
  destruct (cycle_resets_counters_only mixed_world eq_refl) as (_ & Hc & Ho & _).
  split; [exact (Hc WRITE)|]. split; [exact (Hc READ)|].
  exact (Ho kImpedancePath eq_refl).
Defined.

(** X8.  What the reset decides for the next cycle, when nothing else
    touches the counter in between.  After a reset that succeeded, the next
    cycle reads "0", reports nothing for the counter and writes "0" again.
    After a reset that failed, the next cycle does for the counter exactly
    what this one did: a count above zero is reported a second time. *)
Theorem reset_decides_next_cycle (w : World) (operation : IoOperation) (f : File) :
  service_running w = true ->
  fs w !! slowio_path operation = Some f ->
  let path := slowio_path operation in
  (writable f = true ->
   source_slice path (cycle_events (cycle_world w)) =
     [EvReadFile path true; EvWriteFile "0" path true]) /\
  (writable f = false ->
   source_slice path (cycle_events (cycle_world w)) =
     source_slice path (cycle_events w)).
Proof.
  intros Hup Hf. cbv zeta.
  pose proof (source_slice_cycle (SlowIO operation) w Hup) as Hnow.
  pose proof (source_slice_cycle (SlowIO operation) (cycle_world w)) as Hnext.
  rewrite cycle_world_service in Hnext. specialize (Hnext Hup).
  cbn [source_path source_events] in Hnow, Hnext.
  rewrite cycle_world_lookup, is_counter_path_slowio, Hf in Hnext by exact Hup.
  rewrite Hf in Hnow. unfold after_reset in Hnext.
  split; intros Hw; rewrite Hw in Hnext; rewrite Hnext.
  - reflexivity.
  - symmetry. exact Hnow.
Qed.

Lemma reset_decides_next_cycle_witness :
  source_slice kSlowioWriteCntPath (cycle_events (cycle_world mixed_world)) =
    [EvReadFile kSlowioWriteCntPath true; EvWriteFile "0" kSlowioWriteCntPath true] /\
  source_slice kSlowioSyncCntPath
    (cycle_events (cycle_world (one_file kSlowioSyncCntPath "9" false))) =
    [EvReadFile kSlowioSyncCntPath true; EvReportSlowIo SYNC 9;
     EvWriteFile "0" kSlowioSyncCntPath false; EvLog UnableClearSlowIO].
Proof.
  destruct (reset_decides_next_cycle mixed_world WRITE (mkFile "7" true)
              eq_refl eq_refl) as (Hok & _).
  destruct (reset_decides_next_cycle (one_file kSlowioSyncCntPath "9" false) SYNC
              (mkFile "9" false) eq_refl eq_refl) as (_ & Hfail).
  split; [exact (Hok eq_refl)|].
  etransitivity; [exact (Hfail eq_refl) | reflexivity].
Defined.

(** X9.  A second cycle changes nothing that the first has not changed
    already: the world after two cycles in a row is the world after one. *)
Theorem cycle_world_idempotent (w : World) :
  cycle_world (cycle_world w) = cycle_world w.
Proof.
  destruct (service_running w) eqn:Hs.
  - apply World_eq; [|rewrite !cycle_world_service; reflexivity].
    apply map_eq. intros p.
    rewrite (cycle_world_lookup (cycle_world w))
      by (rewrite cycle_world_service; exact Hs).
    rewrite cycle_world_lookup by exact Hs.
    destruct (is_counter_path p); [apply after_reset_idempotent | reflexivity].
  - rewrite (cycle_world_unavailable w Hs). exact (cycle_world_unavailable w Hs).
Qed.

(** ** The loop, read by read *)

Lemma collect_loop_nil (st : State) : collect_loop [] st = Some (Blocked, st).
Proof. rewrite collect_loop_step. reflexivity. Qed.

Lemma collect_loop_expired (elapsed : World -> World) (rest : list timerfd_read)
    (st : State) :
  collect_loop (expired elapsed :: rest) st =
    collect_loop rest
      (mkState (cycle_world (elapsed (world st))) null
         (trace st ++ cycle_events (elapsed (world st)))).
Proof.
  rewrite collect_loop_step. cbn [read_timerfd sys_read after_read].
  cbn [Z.ltb Z.compare andb]. rewrite logAll_spec. reflexivity.
Qed.

Lemma collect_loop_interrupted (e : Z) (rest : list timerfd_read) (st : State) :
  (e =? EINTR) = true ->
  collect_loop (failed e :: rest) st = collect_loop rest st.
Proof.
  intros He. rewrite (collect_loop_step (failed e :: rest)), (collect_loop_step rest).
  cbn [read_timerfd sys_read after_read]. rewrite He. reflexivity.
Qed.

Lemma collect_loop_failed (e : Z) (rest : list timerfd_read) (st : State) :
  (e =? EINTR) = false ->
  collect_loop (failed e :: rest) st =
    Some (Returned,
          mkState (world st) (pixelstats_ st) (trace st ++ [EvLog TimerfdError])).
Proof.
  intros He. rewrite collect_loop_step.
  cbn [read_timerfd sys_read after_read]. rewrite He.
  destruct st as [w px t]. reflexivity.
Qed.

Lemma source_events_setup (s : Source) (o : option File) :
  List.filter is_setup (source_events s o) = [].
Proof. destruct s, o as [f|]; simpl; source_cases; reflexivity. Qed.

Lemma cycle_events_setup (w : World) : List.filter is_setup (cycle_events w) = [].
Proof.
  destruct (service_running w) eqn:Hs.
  - rewrite cycle_events_acquired by exact Hs.
    cbn [List.filter is_setup]. rewrite List.filter_app, filter_concat_map.
    cbn [List.filter is_setup]. rewrite app_nil_r.
    induction sources as [|s l IH]; [reflexivity|].
    cbn [map concat]. rewrite source_events_setup. exact IH.
  - rewrite cycle_events_unavailable by exact Hs. reflexivity.
Qed.

Lemma cycle_events_acquisitions (w : World) : acquisitions (cycle_events w) = 1%nat.
Proof.
  unfold acquisitions. destruct (service_running w) eqn:Hs.
  - rewrite cycle_events_acquired by exact Hs.
    cbn [List.filter is_acquire]. rewrite List.filter_app, filter_concat_map.
    cbn [List.filter is_acquire]. rewrite app_nil_r.
    assert (concat (map (fun a => List.filter is_acquire
                                    (source_events a (fs w !! source_path a)))
                        sources) = []) as ->; [|reflexivity].
    induction sources as [|s l IH]; [reflexivity|].
    cbn [map concat]. rewrite source_events_acquire. exact IH.
  - rewrite cycle_events_unavailable by exact Hs. reflexivity.
Qed.

Lemma acquisitions_app (a b : list Event) :
  acquisitions (a ++ b) = (acquisitions a + acquisitions b)%nat.
Proof. unfold acquisitions. rewrite List.filter_app, length_app. reflexivity. Qed.

(** What a run of the loop adds to the trace. *)
Lemma collect_loop_run (script : list timerfd_read) (st : State) :
  exists st' evs,
    collect_loop script st =
      Some (if existsb hard_failure script then Returned else Blocked, st') /\
    trace st' = trace st ++ evs /\
    acquisitions evs = ticks_served script /\
    List.filter is_setup evs = [] /\
    (pixelstats_ st = null -> pixelstats_ st' = null).
Proof.
  revert st. induction script as [|r script IH]; intros st.
  - exists st, []. rewrite collect_loop_nil, app_nil_r. auto.
  - destruct r as [elapsed|e].
    + rewrite collect_loop_expired.
      destruct (IH (mkState (cycle_world (elapsed (world st))) null
                      (trace st ++ cycle_events (elapsed (world st)))))
        as (st' & evs & Hrun & Htr & Hacq & Hset & Hnull).
      exists st', (cycle_events (elapsed (world st)) ++ evs).
      cbn [existsb hard_failure orb ticks_served]. split; [exact Hrun|].
      split; [rewrite Htr; cbn [trace]; rewrite app_assoc; reflexivity|].
      split; [rewrite acquisitions_app, cycle_events_acquisitions, Hacq; reflexivity|].
      split; [rewrite List.filter_app, cycle_events_setup, Hset; reflexivity|].
      intros _. apply Hnull. reflexivity.
    + cbn [existsb hard_failure ticks_served].
      destruct (e =? EINTR) eqn:He; cbn [negb orb].
      * rewrite collect_loop_interrupted by exact He. apply IH.
      * rewrite collect_loop_failed by exact He.
        eexists. exists [EvLog TimerfdError]. cbn [trace pixelstats_].
        repeat split. intros H; exact H.
Qed.

(** X10.  A read of the timer that fails with an error other than [EINTR]
    ends the run: [collect]'s loop logs the timer error and returns, and what
    the timer would have delivered afterwards plays no part. *)
Theorem timer_read_error_ends_loop (pre post : list timerfd_read) (e : Z)
    (st : State) :
  e <> EINTR ->
  exists st',
    collect_loop (pre ++ failed e :: post) st = Some (Returned, st') /\
    collect_loop (pre ++ [failed e]) st = Some (Returned, st') /\
    last (trace st') = Some (EvLog TimerfdError).
Proof.
  intros He. apply Z.eqb_neq in He. revert st.
  induction pre as [|r pre IH]; intros st; cbn [app].
  - rewrite !collect_loop_failed by exact He.
    eexists. split; [reflexivity|]. split; [reflexivity|].
    cbn [trace]. apply last_snoc.
  - destruct r as [elapsed|e'].
    + rewrite !collect_loop_expired. apply IH.
    + destruct (e' =? EINTR) eqn:He'.
      * rewrite !collect_loop_interrupted by exact He'. apply IH.
      * rewrite !collect_loop_failed by exact He'.
        eexists. split; [reflexivity|]. split; [reflexivity|].
        cbn [trace]. apply last_snoc.
Qed.

Lemma timer_read_error_ends_loop_witness :
  exists st',
    collect_loop ([expired id; failed EINTR] ++ failed 9 :: [expired id; expired id])
                 (mkState (mkWorld ∅ false) null []) = Some (Returned, st') /\
    collect_loop ([expired id; failed EINTR] ++ [failed 9])
                 (mkState (mkWorld ∅ false) null []) = Some (Returned, st') /\
    last (trace st') = Some (EvLog TimerfdError).
Proof.
  apply (timer_read_error_ends_loop [expired id; failed EINTR] [expired id; expired id] 9).
  discriminate.
Defined.

(** X11.  Once the timer is created and armed, [collect] runs one cycle at
    start and one cycle for each expiration of the timer that is delivered
    before a read fails for good, no more and no fewer; it returns when such
    a failure comes and waits in [read] otherwise. *)
Theorem one_cycle_per_tick (env : Env) (st : State) :
  0 <= timerfd_create_ret env ->
  timerfd_settime_ret env = 0 ->
  exists st',
    collect env st =
      Some (if existsb hard_failure (timer env) then Returned else Blocked, st') /\
    acquisitions (trace st') =
      (acquisitions (trace st) + 1 + ticks_served (timer env))%nat.
Proof.
  intros Hfd Hset. apply Z.ltb_ge in Hfd.
  rewrite collect_step. cbv zeta. rewrite Hfd, Hset, logAll_spec.
  cbn [Z.eqb negb world pixelstats_ trace].
  match goal with
  | |- context [collect_loop (timer env) ?s] =>
      destruct (collect_loop_run (timer env) s)
        as (st' & evs & Hrun & Htr & Hacq & _ & _)
  end.
  exists st'. split; [exact Hrun|].
  rewrite Htr. cbn [trace]. rewrite !acquisitions_app, cycle_events_acquisitions, Hacq.
  cbn. lia.
Qed.

Lemma one_cycle_per_tick_witness :
  exists st',
    collect (mkEnv 3 0 [expired id; failed EINTR; expired id; failed 5; expired id])
            (mkState mixed_world null []) = Some (Returned, st') /\
    acquisitions (trace st') = 3%nat.
Proof.
  apply (one_cycle_per_tick
           (mkEnv 3 0 [expired id; failed EINTR; expired id; failed 5; expired id])
           (mkState mixed_world null [])); [simpl; lia | reflexivity].
Defined.

(** X12.  When the timer could be created, the schedule is set up once
    and in this order: the timer is created, [collect] sleeps 30 seconds,
    runs the first cycle, and only then arms the timer, with a first
    expiration and a period of 86400 seconds each.  Nothing after that
    creates a timer, sleeps or arms a timer again, and [pixelstats_] is null
    whenever [collect] returns or waits. *)
Theorem schedule_set_up_once (env : Env) (st : State) :
  0 <= timerfd_create_ret env ->
  exists e st' later,
    collect env st = Some (e, st') /\
    trace st' =
      trace st ++
      EvTimerfdCreate (timerfd_create_ret env) :: EvSleep 30 ::
      cycle_events (world st) ++
      EvTimerfdSettime 86400 86400 (timerfd_settime_ret env) :: later /\
    List.filter is_setup (cycle_events (world st)) = [] /\
    List.filter is_setup later = [] /\
    pixelstats_ st' = null.
Proof.
  intros Hfd. apply Z.ltb_ge in Hfd.
  rewrite collect_step. cbv zeta. rewrite Hfd, logAll_spec.
  cbn [world pixelstats_ trace].
  destruct (negb (timerfd_settime_ret env =? 0)).
  - eexists. eexists. exists [EvLog UnableSetTimer].
    split; [reflexivity|]. cbn [trace pixelstats_].
    split; [rewrite <- !app_assoc; reflexivity|].
    split; [apply cycle_events_setup|]. split; reflexivity.
  - match goal with
    | |- context [collect_loop (timer env) ?s] =>
        destruct (collect_loop_run (timer env) s)
          as (st' & evs & Hrun & Htr & _ & Hsetup & Hnull)
    end.
    eexists. exists st', evs. split; [exact Hrun|].
    split; [rewrite Htr; cbn [trace]; rewrite <- !app_assoc; reflexivity|].
    split; [apply cycle_events_setup|]. split; [exact Hsetup|].
    apply Hnull. reflexivity.
Qed.

Lemma schedule_set_up_once_witness :
  exists e st' later,
    collect (mkEnv 3 0 [expired id]) (mkState (mkWorld ∅ false) proxy []) = Some (e, st') /\
    trace st' =
      [] ++ EvTimerfdCreate 3 :: EvSleep 30 ::
      cycle_events (mkWorld ∅ false) ++ EvTimerfdSettime 86400 86400 0 :: later /\
    List.filter is_setup (cycle_events (mkWorld ∅ false)) = [] /\
    List.filter is_setup later = [] /\
    pixelstats_ st' = null.
Proof.
  apply (schedule_set_up_once (mkEnv 3 0 [expired id])
           (mkState (mkWorld ∅ false) proxy [])).
  simpl. lia.
Defined.

(** ** Files that hold white space only *)







(** ** Counters as the kernel prints them *)

Lemma isdigit_facts (c : ascii) :
  libc.isdigit c = true ->
  libc.isspace c = false /\ Ascii.eqb c zero = false /\ 0 <= libc.digit_value c.
Proof.
  intros Hd. unfold libc.digit_value. rewrite Hd.
  unfold libc.isdigit, libc.isspace, libc.in_range in *.
  apply andb_true_iff in Hd as [Hlo Hhi].
  apply N.leb_le in Hlo. apply N.leb_le in Hhi.
  repeat split.
  - apply orb_false_iff. split.
    + apply N.eqb_neq. lia.
    + apply andb_false_iff. right. apply N.leb_gt. lia.
  - destruct (Ascii.eqb c zero) eqn:Hz; [|reflexivity].
    apply Ascii.eqb_eq in Hz. subst c. vm_compute in Hlo. contradiction.
  - lia.
Qed.

Lemma digits_value_nonneg (ds : string) (acc : Z) :
  all_digits ds = true -> 0 <= acc -> 0 <= libc.digits_value 10 acc ds.
Proof.
  revert acc. induction ds as [|c ds IH]; simpl; intros acc Hd Hacc; [exact Hacc|].
  apply andb_true_iff in Hd as [Hc Hds].
  apply IH; [exact Hds|]. pose proof (isdigit_facts c Hc). lia.
Qed.

Lemma span_all_digits (ds : string) :
  all_digits ds = true -> libc.span libc.isdigit ds = (ds, "").
Proof.
  induction ds as [|c ds IH]; simpl; [reflexivity|].
  intros Hd. apply andb_true_iff in Hd as [Hc Hds].
  rewrite Hc, IH by exact Hds. reflexivity.
Qed.

Lemma c_str_digits (ds tail : string) :
  all_digits ds = true -> libc.c_str (ds +:+ tail) = ds +:+ libc.c_str tail.
Proof.
  induction ds as [|c ds IH]; simpl; [reflexivity|].
  intros Hd. apply andb_true_iff in Hd as [Hc Hds].
  destruct (isdigit_facts c Hc) as (_ & -> & _). rewrite IH by exact Hds. reflexivity.
Qed.

Lemma c_str_starts_with_digit (tail : string) :
  starts_with_digit tail = false -> starts_with_digit (libc.c_str tail) = false.
Proof.
  destruct tail as [|c tail]; simpl; [reflexivity|].
  destruct (Ascii.eqb c zero); [reflexivity | simpl; trivial].
Qed.

(** The field of ["%d"] after its first digit: the digits that follow, as
    long as the buffer has room for them. *)
Lemma ct_int_digits (ds tail : string) (width : nat) (ndigits : bool) :
  all_digits ds = true ->
  (String.length ds <= width)%nat ->
  starts_with_digit tail = false ->
  libc.ct_int width false ndigits (ds +:+ tail) =
    (ds, match ds with EmptyString => ndigits | _ => false end).
Proof.
  revert width ndigits. induction ds as [|c ds IH]; intros width ndigits Hd Hlen Htail.
  - simpl. destruct width; [reflexivity|].
    destruct tail as [|c tail]; [reflexivity|]. simpl in Htail |- *.
    rewrite Htail, andb_false_r. reflexivity.
  - simpl in Hd, Hlen. apply andb_true_iff in Hd as [Hc Hds].
    destruct width as [|width]; [lia|].
    change (String c ds +:+ tail) with (String c (ds +:+ tail)).
    cbn [libc.ct_int]. rewrite Hc.
    rewrite (IH width false) by (assumption || lia).
    destruct ds; reflexivity.
Qed.

Lemma ct_int_number (ds tail : string) (width : nat) :
  all_digits ds = true -> ds <> "" ->
  (String.length ds <= width)%nat ->
  starts_with_digit tail = false ->
  libc.ct_int width true true (ds +:+ tail) = (ds, false).
Proof.
  intros Hd Hne Hlen Htail. destruct ds as [|c ds]; [congruence|].
  simpl in Hd, Hlen. apply andb_true_iff in Hd as [Hc Hds].
  destruct width as [|width]; [lia|].
  change (String c ds +:+ tail) with (String c (ds +:+ tail)).
  cbn [libc.ct_int]. rewrite Hc.
  rewrite (ct_int_digits ds tail width false) by (assumption || lia).
  destruct ds; reflexivity.
Qed.

Lemma skip_space_number (ds tail : string) :
  all_digits ds = true -> ds <> "" ->
  libc.skip_space (ds +:+ tail) = ds +:+ tail.
Proof.
  intros Hd Hne. destruct ds as [|c ds]; [congruence|].
  simpl in Hd. apply andb_true_iff in Hd as [Hc _].
  destruct (isdigit_facts c Hc) as (Hsp & _ & _).
  change (String c ds +:+ tail) with (String c (ds +:+ tail)).
  cbn [libc.skip_space]. rewrite Hsp. reflexivity.
Qed.

Lemma strtoimax_number (ds : string) :
  all_digits ds = true ->
  libc.digits_value 10 0 ds <= libc.INT32_MAX ->
  libc.strtoimax ds = libc.digits_value 10 0 ds.
Proof.
  intros Hd Hmax.
  pose proof (digits_value_nonneg ds 0 Hd (Z.le_refl 0)) as Hpos.
  assert (Hsign : libc.split_sign ds = (false, ds)).
  { destruct ds as [|c ds]; [reflexivity|].
    simpl in Hd. apply andb_true_iff in Hd as [Hc _]. unfold libc.split_sign.
    destruct (Ascii.eqb c "-") eqn:E;
      [apply Ascii.eqb_eq in E; subst c; discriminate Hc|].
    destruct (Ascii.eqb c "+") eqn:E';
      [apply Ascii.eqb_eq in E'; subst c; discriminate Hc|].
    reflexivity. }
  unfold libc.strtoimax. rewrite Hsign, span_all_digits by exact Hd.
  cbn [fst]. unfold libc.INTMAX_MIN, libc.INTMAX_MAX, libc.INT32_MAX in *.
  lia.
Qed.

Lemma sscanf_d_decimal (ds tail : string) :
  all_digits ds = true -> ds <> "" ->
  (String.length ds <= 512)%nat ->
  starts_with_digit tail = false ->
  libc.digits_value 10 0 ds <= libc.INT32_MAX ->
  libc.sscanf_d (ds +:+ tail) 0 = (1, libc.digits_value 10 0 ds).
Proof.
  intros Hd Hne Hlen Htail Hmax.
  pose proof (digits_value_nonneg ds 0 Hd (Z.le_refl 0)) as Hpos.
  unfold libc.sscanf_d. rewrite c_str_digits by exact Hd.
  apply c_str_starts_with_digit in Htail.
  rewrite skip_space_number by assumption.
  destruct (ds +:+ libc.c_str tail) as [|c r] eqn:E.
  - destruct ds; [congruence | discriminate E].
  - rewrite <- E.
    rewrite (ct_int_number ds (libc.c_str tail) (libc.BUF - 1)) by assumption.
    rewrite strtoimax_number by assumption.
    unfold libc.to_int32, libc.INT32_MAX in *.
    rewrite Z.mod_small by lia. f_equal. lia.
Qed.

(** X14.  A counter file as the kernel prints it, a decimal number and
    then something that is not a digit (a newline, say), is read as that
    number: up to the largest [int32_t] the number is reported when it is
    above zero and passed over in silence when it is zero, and the counter is
    reset in both cases. *)
Theorem decimal_counter_reported (operation : IoOperation) (w : World) (f : File)
    (ds tail : string) :
  fs w !! slowio_path operation = Some f ->
  contents f = ds +:+ tail ->
  all_digits ds = true -> ds <> "" ->
  (String.length ds <= 512)%nat ->
  starts_with_digit tail = false ->
  libc.digits_value 10 0 ds <= libc.INT32_MAX ->
  let path := slowio_path operation in
  let n := libc.digits_value 10 0 ds in
  events_of (reportSlowIoFromFile path operation) w =
    EvReadFile path true ::
    (if 0 <? n then [EvReportSlowIo operation n] else []) ++ reset_events path f.
Proof.
  intros Hf Hc Hd Hne Hlen Htail Hmax. cbv zeta.
  rewrite (events_of_reportSlowIoFromFile operation w f Hf).
  unfold count_events. rewrite Hc, sscanf_d_decimal by assumption.
  reflexivity.
Qed.

Lemma decimal_counter_reported_witness :
  events_of (reportSlowIoFromFile kSlowioWriteCntPath WRITE)
            (one_file kSlowioWriteCntPath ("42" +:+ newline) true) =
    [EvReadFile kSlowioWriteCntPath true; EvReportSlowIo WRITE 42;
     EvWriteFile "0" kSlowioWriteCntPath true].
Proof.
  refine (decimal_counter_reported WRITE
            (one_file kSlowioWriteCntPath ("42" +:+ newline) true)
            (mkFile ("42" +:+ newline) true) "42" newline
            eq_refl eq_refl eq_refl _ _ eq_refl _).
  - discriminate.
  - simpl. lia.
  - vm_compute. discriminate.
Defined.
